(** * Recipe Finder: a shallow embedding of [index.js] and its properties

    The JavaScript program reads a comma separated list of ingredients,
    looks every ingredient up in a recipe database, intersects the result
    lists, removes repeated identifiers and prints the outcome.

    Conventions of the embedding.
    - A JavaScript string is a [string]: one [ascii] per UTF-16 code unit,
      which covers the code units U+0000 .. U+00FF (ASCII and Latin-1).
      On that range [trim] and [toLowerCase] are modelled exactly.  The
      module [Utf16] has the parser on strings of any code units, with
      the [toLowerCase] of the host as a parameter.
    - Arrays that are only read after they were built are [list]s.  The
      array handed to [displayMeals] lives in a store of arrays, because
      that function sorts, and [Array.prototype.sort] sorts in place.
    - A [Map] is an insertion ordered association list.
    - [console.log], [rl.question] and the answers typed by the user are an
      explicit [world]; exceptions are an [outcome]. *)

From Stdlib Require Import String Ascii List NArith ZArith Lia Permutation Sorted DecimalString.
From stdpp Require Import gmap strings list.
Import ListNotations.

Open Scope string_scope.
Open Scope list_scope.
Open Scope stdpp_scope.

(** ** Strings *)

Module JsString.

(** The line feed and the double quote, which string literals cannot hold. *)
Definition nl : string := String (ascii_of_nat 10) EmptyString.
Definition dq : string := String (ascii_of_nat 34) EmptyString.

(** WhiteSpace and LineTerminator code units below U+0100, the characters
    [String.prototype.trim] strips: TAB, LF, VT, FF, CR, SP and NBSP. *)
Definition isWhiteSpace (c : ascii) : bool :=
  let n := N_of_ascii c in
  ((9 <=? n) && (n <=? 13) || (n =? 32) || (n =? 160))%N.

(** Code units below U+0100 that [toLowerCase] changes: A-Z and the
    Latin-1 capitals U+00C0 .. U+00DE without the multiplication sign. *)
Definition isUpperCase (c : ascii) : bool :=
  let n := N_of_ascii c in
  ((65 <=? n) && (n <=? 90) || (192 <=? n) && (n <=? 222) && negb (n =? 215))%N.

Definition toLowerChar (c : ascii) : ascii :=
  if isUpperCase c then ascii_of_N (N_of_ascii c + 32) else c.

(** [s.toLowerCase()] *)
Fixpoint toLowerCase (s : string) : string :=
  match s with
  | EmptyString => EmptyString
  | String c rest => String (toLowerChar c) (toLowerCase rest)
  end.

Fixpoint trimStart (s : string) : string :=
  match s with
  | EmptyString => EmptyString
  | String c rest => if isWhiteSpace c then trimStart rest else s
  end.

Fixpoint trimEnd (s : string) : string :=
  match s with
  | EmptyString => EmptyString
  | String c rest =>
      match trimEnd rest with
      | EmptyString => if isWhiteSpace c then EmptyString else String c EmptyString
      | kept => String c kept
      end
  end.

(** [s.trim()] *)
Definition trim (s : string) : string := trimEnd (trimStart s).

(** [s.split(",")]: the pieces between the commas; there is always at
    least one piece, and the empty string has the single piece [""]. *)
Fixpoint split_comma (s : string) : list string :=
  match s with
  | EmptyString => [EmptyString]
  | String c rest =>
      if Ascii.eqb c ","%char then EmptyString :: split_comma rest
      else match split_comma rest with
           | piece :: pieces => String c piece :: pieces
           | [] => [String c EmptyString]
           end
  end.

(** [arr.join(sep)] *)
Definition join (sep : string) (pieces : list string) : string :=
  String.concat sep pieces.

(** A number inside a template literal: its decimal digits. *)
Definition string_of_nat (n : nat) : string :=
  NilEmpty.string_of_uint (Nat.to_uint n).

(** A string is truthy when it is not empty. *)
Definition truthy (s : string) : bool :=
  match s with EmptyString => false | String _ _ => true end.

(** First and last code unit. *)
Definition first (s : string) : option ascii :=
  match s with EmptyString => None | String c _ => Some c end.

Fixpoint last (s : string) : option ascii :=
  match s with
  | EmptyString => None
  | String c EmptyString => Some c
  | String _ rest => last rest
  end.

Fixpoint all_chars (p : ascii -> bool) (s : string) : bool :=
  match s with
  | EmptyString => true
  | String c rest => p c && all_chars p rest
  end.

End JsString.
Import JsString.

(** ** Recipes *)

(** One record of the recipe database: [{idMeal, strMeal, strMealThumb}]. *)
Record Meal := mkMeal {
  idMeal : string;
  strMeal : string;
  strMealThumb : string
}.

(** ** Ingredient input *)

(** [raw.split(",").map((s) => s.trim().toLowerCase()).filter((s) => s.length > 0)] *)
Definition parseIngredients (raw : string) : list string :=
  List.filter (fun s => (0 <? String.length s)%nat)
    (List.map (fun s => toLowerCase (trim s)) (split_comma raw)).

(** What the program throws.  Every value is a JavaScript [Error]; the
    constructors name the situations and [message] gives [err.message]. *)
Inductive error :=
| InvalidInput
| EmptyIngredientList
| TooManyIngredients
| IngredientTooShort (token : string)
| LookupFailure (cause : string).

Definition message (e : error) : string :=
  match e with
  | InvalidInput => "Ingredients must be an array."
  | EmptyIngredientList =>
      "Please enter at least one ingredient (example: chicken, rice)."
  | TooManyIngredients =>
      "Please enter 6 ingredients or fewer (to keep results fast)."
  | IngredientTooShort tooShort =>
      "Ingredient " +:+ dq +:+ tooShort +:+ dq +:+
      " is too short. Type a real ingredient name."
  | LookupFailure cause => cause
  end.

(** [validateIngredients]: [None] when the function returns, [Some e] when
    it throws [e].  The argument is a list, so [Array.isArray] holds and
    the first check never fires.  [find] returns the first short token and
    the [if (tooShort)] test asks whether that string is truthy. *)
Definition validateIngredients (ingredients : list string) : option error :=
  if (length ingredients =? 0)%nat then Some EmptyIngredientList
  else if (6 <? length ingredients)%nat then Some TooManyIngredients
  else match List.find (fun i => (String.length i <? 2)%nat) ingredients with
       | Some tooShort =>
           if truthy tooShort then Some (IngredientTooShort tooShort) else None
       | None => None
       end.

(** ** The JavaScript [Map] *)

Module JsMap.

(** Entries in insertion order; the keys are pairwise different. *)
Definition t (V : Type) : Type := list (string * V).

(** [new Map()] *)
Definition empty {V : Type} : t V := [].

(** [map.set(key, value)]: an entry whose key is present has its value
    replaced where it stands; a new key is appended. *)
Fixpoint set {V : Type} (key : string) (value : V) (m : t V) : t V :=
  match m with
  | [] => [(key, value)]
  | (k, v) :: rest =>
      if String.eqb k key then (k, value) :: rest
      else (k, v) :: set key value rest
  end.

(** [map.get(key)] *)
Fixpoint get {V : Type} (key : string) (m : t V) : option V :=
  match m with
  | [] => None
  | (k, v) :: rest => if String.eqb k key then Some v else get key rest
  end.

(** [map.keys()] and [map.values()], in insertion order. *)
Definition keys {V : Type} (m : t V) : list string := List.map fst m.
Definition values {V : Type} (m : t V) : list V := List.map snd m.

End JsMap.

(** ** Deduplication *)

(** [meals.reduce((map, meal) => { map.set(meal.idMeal, meal); return map; }, new Map())] *)
Definition buildMealMap (meals : list Meal) : JsMap.t Meal :=
  List.fold_left (fun map meal => JsMap.set (idMeal meal) meal map) meals JsMap.empty.

(** The two lines of [main] that remove repeated identifiers:
    [Array.from(buildMealMap(intersection).values())]. *)
Definition dedupe (meals : list Meal) : list Meal :=
  JsMap.values (buildMealMap meals).

(** ** Intersection *)

(** [listA.filter((mealA) => listB.some((mealB) => mealB.idMeal === mealA.idMeal))] *)
Definition intersectTwoLists (listA listB : list Meal) : list Meal :=
  List.filter
    (fun mealA => List.existsb (fun mealB => String.eqb (idMeal mealB) (idMeal mealA)) listB)
    listA.

(** [intersectAllRecursively(lists, index)].  The recursion goes up in
    [index], so the embedding takes a bound [fuel] on the depth of the
    calls; [None] says the bound was reached.  [lists[index]] past the end
    is [undefined], on which [filter] cannot be called: also [None]. *)
Fixpoint intersectAllRecursively (fuel : nat) (lists : list (list Meal)) (index : nat)
  : option (list Meal) :=
  match fuel with
  | 0 => None
  | S fuel' =>
      if (length lists =? 0)%nat then Some []
      else if (length lists =? 1)%nat then nth_error lists 0
      else if (index =? length lists - 1)%nat then nth_error lists index
      else
        match intersectAllRecursively fuel' lists (index + 1) with
        | None => None
        | Some restIntersection =>
            match nth_error lists index with
            | Some current => Some (intersectTwoLists current restIntersection)
            | None => None
            end
        end
  end.

(** The call [intersectAllRecursively(mealLists)] of [main]: [index] takes
    its default 0, and one level of calls per list is enough. *)
Definition intersectAll (lists : list (list Meal)) : option (list Meal) :=
  intersectAllRecursively (S (length lists)) lists 0.

(** The same function, returning next to its result the number of times it
    called [intersectTwoLists]. *)
Fixpoint intersectAllCounting (fuel : nat) (lists : list (list Meal)) (index : nat)
  : option (list Meal * nat) :=
  match fuel with
  | 0 => None
  | S fuel' =>
      if (length lists =? 0)%nat then Some ([], 0)
      else if (length lists =? 1)%nat then option_map (fun l => (l, 0)) (nth_error lists 0)
      else if (index =? length lists - 1)%nat
           then option_map (fun l => (l, 0)) (nth_error lists index)
      else
        match intersectAllCounting fuel' lists (index + 1) with
        | None => None
        | Some (restIntersection, calls) =>
            match nth_error lists index with
            | Some current => Some (intersectTwoLists current restIntersection, S calls)
            | None => None
            end
        end
  end.

(** The reduction written as a loop, as the specification proposes: start
    from the first list and intersect it with every later list in turn. *)
Definition intersectAllLeftFold (lists : list (list Meal)) : list Meal :=
  match lists with
  | [] => []
  | first :: rest => List.fold_left intersectTwoLists rest first
  end.

(** The nesting the recursion builds: the last list is the innermost. *)
Fixpoint intersectRightNested (lists : list (list Meal)) : list Meal :=
  match lists with
  | [] => []
  | [only] => only
  | current :: rest => intersectTwoLists current (intersectRightNested rest)
  end.

(** Identifiers of a list of recipes, as a list and as a set. *)
Definition ids (meals : list Meal) : list string := List.map idMeal meals.
Definition idset (meals : list Meal) : gset string := list_to_set (ids meals).

(** The identifiers in their order of first appearance, each once. *)
Fixpoint firstSeen (keys : list string) : list string :=
  match keys with
  | [] => []
  | k :: rest => k :: List.filter (fun k' => negb (String.eqb k' k)) (firstSeen rest)
  end.

(** Does some record of [meals] carry the identifier [key]?  This is the
    [some] test of [intersectTwoLists]. *)
Definition hasId (key : string) (meals : list Meal) : bool :=
  List.existsb (fun mealB => String.eqb (idMeal mealB) key) meals.

(** Is [key] an identifier in every list? *)
Definition inAll (key : string) (lists : list (list Meal)) : bool :=
  List.forallb (hasId key) lists.

(** The last record of [meals] that carries the identifier [key]. *)
Definition lastWithId (key : string) (meals : list Meal) : option Meal :=
  List.find (fun meal => String.eqb (idMeal meal) key) (List.rev meals).

(** The first record of [meals] that carries the identifier [key]. *)
Definition firstWithId (key : string) (meals : list Meal) : option Meal :=
  List.find (fun meal => String.eqb (idMeal meal) key) meals.

(** ** The world of the program: store of arrays, terminal, exceptions *)

(** What appears on the terminal: a [console.log] line or the query of an
    [rl.question]. *)
Inductive event :=
| Log (line : string)
| Question (query : string).

Record world := mkWorld {
  heap : gmap nat (list Meal);   (* the arrays that are sorted or copied *)
  console : list event;          (* terminal output, oldest first *)
  stdin : list string;           (* the lines the user will type *)
  readers : nat                  (* readline interfaces that are open *)
}.

Definition set_heap (h : gmap nat (list Meal)) (w : world) : world :=
  mkWorld h (console w) (stdin w) (readers w).
Definition set_console (c : list event) (w : world) : world :=
  mkWorld (heap w) c (stdin w) (readers w).
Definition set_stdin (i : list string) (w : world) : world :=
  mkWorld (heap w) (console w) i (readers w).
Definition set_readers (n : nat) (w : world) : world :=
  mkWorld (heap w) (console w) (stdin w) n.

(** Ways the embedding itself can stop: the bound on the depth of calls
    was reached, or a reference names no array. *)
Inductive fault := OutOfFuel | DanglingReference.

(** How a computation ends: it returns, it throws, it waits for a line of
    input that never comes, or the embedding stops. *)
Inductive outcome (A : Type) :=
| Return (a : A)
| Throw (e : error)
| Pending
| Fault (f : fault).
Arguments Return {A} a.
Arguments Throw {A} e.
Arguments Pending {A}.
Arguments Fault {A} f.

Definition M (A : Type) : Type := world -> outcome A * world.

#[global] Instance M_ret : MRet M := fun A a w => (Return a, w).

#[global] Instance M_bind : MBind M := fun A B k c w =>
  match c w with
  | (Return a, w') => k a w'
  | (Throw e, w') => (Throw e, w')
  | (Pending, w') => (Pending, w')
  | (Fault f, w') => (Fault f, w')
  end.

Definition throw {A : Type} (e : error) : M A := fun w => (Throw e, w).
Definition stop {A : Type} (f : fault) : M A := fun w => (Fault f, w).

(** [try { body } catch (err) { handler(err) } finally { cleanup }].  A
    computation that waits forever runs neither the handler nor the
    cleanup. *)
Definition try_catch_finally (body : M unit) (handler : error -> M unit)
    (cleanup : M unit) : M unit := fun w =>
  match body w with
  | (Return _, w') => cleanup w'
  | (Throw e, w') =>
      match handler e w' with
      | (Return _, w'') => cleanup w''
      | (Throw e', w'') =>
          match cleanup w'' with
          | (Return _, w''') => (Throw e', w''')
          | other => other
          end
      | other => other
      end
  | other => other
  end.

(** [console.log(line)] *)
Definition log (line : string) : M unit := fun w =>
  (Return tt, set_console (console w ++ [Log line]) w).

(** [readline.createInterface(...)] and [rl.close()] *)
Definition createInput : M unit := fun w =>
  (Return tt, set_readers (S (readers w)) w).
Definition close : M unit := fun w =>
  (Return tt, set_readers (pred (readers w)) w).

(** [await ask(rl, question)]: the query is written, then the next line
    the user types is the answer. *)
Definition ask (question : string) : M string := fun w =>
  let w' := set_console (console w ++ [Question question]) w in
  match stdin w with
  | [] => (Pending, w')
  | answer :: rest => (Return answer, set_stdin rest w')
  end.

(** Arrays in the store. *)
Definition alloc (arr : list Meal) : M nat := fun w =>
  let ref := fresh (dom (heap w)) in
  (Return ref, set_heap (<[ref := arr]> (heap w)) w).

Definition read (ref : nat) : M (list Meal) := fun w =>
  match heap w !! ref with
  | Some arr => (Return arr, w)
  | None => (Fault DanglingReference, w)
  end.

Definition write (ref : nat) (arr : list Meal) : M unit := fun w =>
  (Return tt, set_heap (<[ref := arr]> (heap w)) w).

(** [arr.slice(start, end)]: a new array. *)
Definition array_slice (ref : nat) (start stop_ : nat) : M nat :=
  arr ← read ref; alloc (firstn (stop_ - start) (skipn start arr)).

(** [arr.slice()]: a new array with all the elements. *)
Definition array_copy (ref : nat) : M nat :=
  arr ← read ref; array_slice ref 0 (length arr).

(** [Array.prototype.sort] is stable and, for a comparator that is a
    consistent ordering, returns the elements in ascending order; every
    stable sorting algorithm then gives the same array.  The embedding
    inserts the elements from the right. *)
Fixpoint insertSorted (compareFn : Meal -> Meal -> Z) (x : Meal) (sorted : list Meal)
  : list Meal :=
  match sorted with
  | [] => [x]
  | y :: rest =>
      if (compareFn x y <=? 0)%Z then x :: y :: rest
      else y :: insertSorted compareFn x rest
  end.

Definition sortBy (compareFn : Meal -> Meal -> Z) (arr : list Meal) : list Meal :=
  List.fold_right (insertSorted compareFn) [] arr.

(** [arr.sort(compareFn)]: sorts the array itself and returns it. *)
Definition array_sort (compareFn : Meal -> Meal -> Z) (ref : nat) : M nat :=
  arr ← read ref; write ref (sortBy compareFn arr);; mret ref.

(** [arr.map((m, idx) => ...)]: calls the function on every element with
    its index and collects the results in a new array. *)
Fixpoint mapIndexed (f : Meal -> nat -> M Meal) (arr : list Meal) (idx : nat)
  : M (list Meal) :=
  match arr with
  | [] => mret []
  | m :: rest =>
      m' ← f m idx; rest' ← mapIndexed f rest (S idx); mret (m' :: rest')
  end.

Definition array_map (f : Meal -> nat -> M Meal) (ref : nat) : M nat :=
  arr ← read ref; arr' ← mapIndexed f arr 0; alloc arr'.

(** ** The program *)

Definition MAX_RESULTS_TO_SHOW : nat := 10.

(** What one request to the recipe database brings back: a body whose
    [meals] field is an array or [null], or a failure of the transport. *)
Inductive response :=
| Resolved (meals : option (list Meal))
| Rejected (cause : string).

Section Program.

(** [a.localeCompare(b)] of the host, a number whose sign orders [a] and
    [b]; and the recipe database, by ingredient. *)
Variable localeCompare : string -> string -> Z.
Variable request : string -> response.

(** [fetchMealsByIngredient]: [response.data.meals ?? []]. *)
Definition fetchMealsByIngredient (ingredient : string) : M (list Meal) :=
  match request ingredient with
  | Resolved (Some meals) => mret meals
  | Resolved None => mret []
  | Rejected cause => throw (LookupFailure cause)
  end.

(** The line printed for one recipe. *)
Definition entryLine (m : Meal) (idx : nat) : string :=
  string_of_nat (idx + 1) +:+ ". " +:+ strMeal m +:+ " (ID: " +:+ idMeal m +:+ ")".

(** The line printed after the entries. *)
Definition moreLine (count : nat) : string :=
  "...and " +:+ string_of_nat (count - MAX_RESULTS_TO_SHOW) +:+ " more" +:+ nl.

Definition byName (a b : Meal) : Z := localeCompare (strMeal a) (strMeal b).

Definition displayMeals (meals : nat) : M unit :=
  log (nl +:+ "=== Recipe Finder Results ===");;
  arr ← read meals;
  if (length arr =? 0)%nat then
    log ("No matching recipes found for those ingredients." +:+ nl)
  else
    copy ← array_copy meals;
    sorted ← array_sort byName copy;
    shown ← array_slice sorted 0 MAX_RESULTS_TO_SHOW;
    _ ← array_map (fun m idx => log (entryLine m idx);; mret m) shown;
    count ← (arr' ← read meals; mret (length arr'));
    if (MAX_RESULTS_TO_SHOW <? count)%nat then log (moreLine count)
    else log "".

Definition yesNo (b : bool) : string := if b then "Yes" else "No".

Definition printSummary (ingredients : list string) (meals : nat) : M unit :=
  arr ← read meals;
  let hasManyIngredients := (3 <=? length ingredients)%nat in
  let hasAnyResults := (0 <? length arr)%nat in
  let totalNameChars :=
    List.fold_left (fun sum meal => sum + String.length (strMeal meal)) arr 0 in
  log "=== Summary ===";;
  log ("Ingredients: " +:+ join ", " ingredients);;
  log ("Ingredient count: " +:+ string_of_nat (length ingredients));;
  log ("Found recipes: " +:+ string_of_nat (length arr));;
  log ("Total recipe name characters: " +:+ string_of_nat totalNameChars);;
  log ("Used 3+ ingredients? " +:+ yesNo hasManyIngredients);;
  log ("Any results? " +:+ yesNo hasAnyResults);;
  log "".

(** The [for (const ing of ingredients)] loop of [main]: one request
    after the other, each answer pushed on [mealLists] and reported. *)
Fixpoint fetchAll (ingredients : list string) (mealLists : list (list Meal))
  : M (list (list Meal)) :=
  match ingredients with
  | [] => mret mealLists
  | ing :: rest =>
      meals ← fetchMealsByIngredient ing;
      log ("- Found " +:+ string_of_nat (length meals) +:+
           " recipes that include " +:+ dq +:+ ing +:+ dq);;
      fetchAll rest (mealLists ++ [meals])
  end.

(** [validateIngredients(ingredients)] as a statement. *)
Definition validate (ingredients : list string) : M unit :=
  match validateIngredients ingredients with
  | Some e => throw e
  | None => mret tt
  end.

(** A result of the bounded recursion, as a statement. *)
Definition bounded {A : Type} (r : option A) : M A :=
  match r with
  | Some a => mret a
  | None => stop OutOfFuel
  end.

(** What the [catch] block of [main] prints. *)
Definition report (err : error) : M unit :=
  log (nl +:+ "⚠️  Something went wrong:");;
  log (message err);;
  log (nl +:+ "Try again with a valid ingredient list." +:+ nl).

Definition isYes (again : string) : bool :=
  String.eqb again "y" || String.eqb again "yes".

(** The [try] block of [main]; [restart] stands for the call
    [await main()] made when the user wants another search. *)
Definition cycle (restart : M unit) : M unit :=
  log "=== Recipe Finder (JavaScript / Node.js) ===";;
  log "Type ingredients separated by commas.";;
  log ("Example: chicken, rice, cheese" +:+ nl);;
  input ← ask "Enter ingredients: ";
  let ingredients := parseIngredients input in
  validate ingredients;;
  log (nl +:+ "Searching recipes...");;
  mealLists ← fetchAll ingredients [];
  intersection ← bounded (intersectAll mealLists);
  let uniqueMap := buildMealMap intersection in
  uniqueMeals ← alloc (JsMap.values uniqueMap);
  displayMeals uniqueMeals;;
  printSummary ingredients uniqueMeals;;
  answer ← ask "Search again? (y/n): ";
  let again := toLowerCase (trim answer) in
  if isYes again then
    log (nl +:+ "---------------------------------" +:+ nl);;
    restart
  else
    log (nl +:+ "Done. Goodbye!").

(** [main].  It calls itself when the user wants another search; [fuel]
    bounds the depth of these calls. *)
Fixpoint main (fuel : nat) : M unit :=
  match fuel with
  | 0 => stop OutOfFuel
  | S fuel' =>
      createInput;;
      try_catch_finally (cycle (main fuel')) report close
  end.

End Program.

(** ** Vocabulary of the statements *)

(** What [parseIngredients] does to one piece. *)
Definition normalize (piece : string) : string := toLowerCase (trim piece).

Definition nonEmpty (s : string) : bool := (0 <? String.length s)%nat.
Definition isShort (s : string) : bool := (String.length s <? 2)%nat.
Definition noComma (s : string) : bool :=
  all_chars (fun c => negb (Ascii.eqb c ","%char)) s.
Definition notUpper (c : ascii) : bool := negb (isUpperCase c).

(** A token as the parser promises it: not empty, without capitals,
    without white space at either end. *)
Record normalized (t : string) : Prop := {
  normalized_nonempty : t <> "";
  normalized_lower : toLowerCase t = t;
  normalized_no_capital : all_chars notUpper t = true;
  normalized_trimmed : trim t = t;
  normalized_first : forall c, first t = Some c -> isWhiteSpace c = false;
  normalized_last : forall c, last t = Some c -> isWhiteSpace c = false
}.

(** The lines of the entries, numbered from [idx + 1]. *)
Fixpoint entryLinesFrom (idx : nat) (shown : list Meal) : list string :=
  match shown with
  | [] => []
  | m :: rest => entryLine m idx :: entryLinesFrom (S idx) rest
  end.

Definition resultsHeader : string := nl +:+ "=== Recipe Finder Results ===".
Definition noMatches : string :=
  "No matching recipes found for those ingredients." +:+ nl.

(** The display of a list that is not empty ends with this line. *)
Definition lastLine (count : nat) : string :=
  if (MAX_RESULTS_TO_SHOW <? count)%nat then moreLine count else "".

Definition banner : list event :=
  [ Log "=== Recipe Finder (JavaScript / Node.js) ===";
    Log "Type ingredients separated by commas.";
    Log ("Example: chicken, rice, cheese" +:+ nl);
    Question "Enter ingredients: " ].

Definition reportLines (e : error) : list event :=
  [ Log (nl +:+ "⚠️  Something went wrong:");
    Log (message e);
    Log (nl +:+ "Try again with a valid ingredient list." +:+ nl) ].

Definition foundLine (meals : list Meal) (ing : string) : event :=
  Log ("- Found " +:+ string_of_nat (length meals) +:+
       " recipes that include " +:+ dq +:+ ing +:+ dq).

Definition answered (r : option (list Meal)) : list Meal :=
  match r with Some meals => meals | None => [] end.

(** The requests of one cycle, in order, up to the first that fails: the
    lines reported for the requests that were answered, and the failure. *)
Fixpoint lookupAll (request : string -> response) (ingredients : list string)
  : list event * option error :=
  match ingredients with
  | [] => ([], None)
  | ing :: rest =>
      match request ing with
      | Rejected cause => ([], Some (LookupFailure cause))
      | Resolved r =>
          (foundLine (answered r) ing :: fst (lookupAll request rest),
           snd (lookupAll request rest))
      end
  end.

(** The failure of the cycle that starts with the input [raw], if any: the
    failure of the validation, else that of the first request to fail. *)
Definition cycleFailure (request : string -> response) (raw : string) : option error :=
  match validateIngredients (parseIngredients raw) with
  | Some e => Some e
  | None => snd (lookupAll request (parseIngredients raw))
  end.

(** What such a cycle printed between the prompt and the failure. *)
Definition cycleProgress (request : string -> response) (raw : string) : list event :=
  match validateIngredients (parseIngredients raw) with
  | Some e => []
  | None => Log (nl +:+ "Searching recipes...") :: fst (lookupAll request (parseIngredients raw))
  end.

(** How often the program asked for ingredients. *)
Definition isPrompt (ev : event) : bool :=
  match ev with
  | Question query => String.eqb query "Enter ingredients: "
  | Log _ => false
  end.
Definition prompts (c : list event) : nat := length (List.filter isPrompt c).

(** Ascending order of the names. *)
Definition nameLe (localeCompare : string -> string -> Z) (a b : Meal) : Prop :=
  (localeCompare (strMeal a) (strMeal b) <= 0)%Z.

(** Is the key [k] none of the keys in [seen]? *)
Definition absentFrom (seen : list string) (k : string) : bool :=
  negb (List.existsb (String.eqb k) seen).

(** The world after some events were printed. *)
Definition emit (events : list event) (w : world) : world :=
  set_console (console w ++ events) w.

(** Everything [displayMeals] prints for the array [arr]. *)
Definition displayLines (localeCompare : string -> string -> Z) (arr : list Meal)
  : list event :=
  match arr with
  | [] => [Log resultsHeader; Log noMatches]
  | _ :: _ =>
      Log resultsHeader
      :: List.map Log
           (entryLinesFrom 0
              (firstn MAX_RESULTS_TO_SHOW (sortBy (byName localeCompare) arr)))
      ++ [Log (lastLine (length arr))]
  end.

(** A comparator to run the program with: the order of the code units. *)
Definition codeUnitCompare (a b : string) : Z :=
  match String.compare a b with
  | Lt => (-1)%Z
  | Eq => 0%Z
  | Gt => 1%Z
  end.

(** Fifteen recipes with the identifiers 1 to 15. *)
Definition fifteenMeals : list Meal :=
  List.map (fun n => mkMeal (string_of_nat n) ("Recipe " +:+ string_of_nat n) "")
    (List.seq 1 15).

(** A recipe database to run the program with; the request for saffron
    fails. *)
Definition sampleRequest (ingredient : string) : response :=
  if String.eqb ingredient "chicken" then
    Resolved (Some [mkMeal "1" "Teriyaki Chicken" ""; mkMeal "2" "Chicken Congee" "";
                    mkMeal "3" "Arroz con Pollo" ""])
  else if String.eqb ingredient "rice" then
    Resolved (Some [mkMeal "2" "Chicken Congee" ""; mkMeal "3" "Arroz con Pollo" "";
                    mkMeal "4" "Rice Pudding" ""])
  else if String.eqb ingredient "saffron" then Rejected "Network Error"
  else Resolved None.

(** The number of commas of a string. *)
Fixpoint commas (s : string) : nat :=
  match s with
  | EmptyString => 0
  | String c rest => if Ascii.eqb c ","%char then S (commas rest) else commas rest
  end.

(** White space or a comma. *)
Definition blankOrComma (c : ascii) : bool := isWhiteSpace c || Ascii.eqb c ","%char.

(** Was the request for the ingredient answered, and with which list? *)
Definition resolved (request : string -> response) (ing : string) : bool :=
  match request ing with
  | Resolved _ => true
  | Rejected _ => false
  end.

Definition answerOf (request : string -> response) (ing : string) : list Meal :=
  match request ing with
  | Resolved r => answered r
  | Rejected _ => []
  end.

(** The lines that report the answers to the requests. *)
Definition foundLines (request : string -> response) (ingredients : list string)
  : list event :=
  List.map (fun ing => foundLine (answerOf request ing) ing) ingredients.

(** The lines of [printSummary]. *)
Definition summaryLines (ingredients : list string) (arr : list Meal) : list event :=
  [ Log "=== Summary ===";
    Log ("Ingredients: " +:+ join ", " ingredients);
    Log ("Ingredient count: " +:+ string_of_nat (length ingredients));
    Log ("Found recipes: " +:+ string_of_nat (length arr));
    Log ("Total recipe name characters: " +:+
         string_of_nat (list_sum (List.map (fun meal => String.length (strMeal meal)) arr)));
    Log ("Used 3+ ingredients? " +:+ yesNo (3 <=? length ingredients)%nat);
    Log ("Any results? " +:+ yesNo (0 <? length arr)%nat);
    Log "" ].

(** The recipes a cycle displays when nothing fails: the answers to the
    requests, intersected and deduplicated. *)
Definition cycleMeals (request : string -> response) (raw : string) : list Meal :=
  match intersectAll (List.map (answerOf request) (parseIngredients raw)) with
  | Some intersection => dedupe intersection
  | None => []
  end.

(** What such a cycle prints, up to the question whether to go on. *)
Definition cycleOutput (localeCompare : string -> string -> Z)
    (request : string -> response) (raw : string) : list event :=
  banner
  ++ Log (nl +:+ "Searching recipes...") :: foundLines request (parseIngredients raw)
  ++ displayLines localeCompare (cycleMeals request raw)
  ++ summaryLines (parseIngredients raw) (cycleMeals request raw)
  ++ [Question "Search again? (y/n): "].

Definition separatorLine : event := Log (nl +:+ "---------------------------------" +:+ nl).
Definition goodbyeLine : event := Log (nl +:+ "Done. Goodbye!").

(** Every array of the store [h] is in [h'] as it was. *)
Definition frames (h h' : gmap nat (list Meal)) : Prop :=
  forall ref, is_Some (h !! ref) -> h' !! ref = h !! ref.

(** The world [w'] continues the world [w]: the terminal shows what it
    showed and possibly more, the unread input is an end of what was
    unread, and the arrays that were in the store are as they were. *)
Definition continues (w w' : world) : Prop :=
  (exists printed, console w' = console w ++ printed)
  /\ (exists consumed, stdin w = consumed ++ stdin w')
  /\ frames (heap w) (heap w').

(** The statements of the [try] block from the question on. *)
Definition afterCycle (restart : M unit) : M unit :=
  answer ← ask "Search again? (y/n): ";
  let again := toLowerCase (trim answer) in
  if isYes again then
    log (nl +:+ "---------------------------------" +:+ nl);;
    restart
  else
    log (nl +:+ "Done. Goodbye!").

(** ** Strings of any UTF-16 code units *)

Module Utf16.

(** A JavaScript string as the sequence of its UTF-16 code units, any of
    them: the strings of the program in full. *)
Definition ustring : Type := list N.

(** The code units [String.prototype.trim] strips: WhiteSpace (TAB, VT,
    FF, ZWNBSP and the space separators SP, NBSP, U+1680, U+2000 to
    U+200A, U+202F, U+205F, U+3000) and LineTerminator (LF, CR, LS, PS). *)
Definition isWhiteSpace (u : N) : bool :=
  ((9 <=? u) && (u <=? 13) || (u =? 32) || (u =? 160) || (u =? 0x1680)
   || (0x2000 <=? u) && (u <=? 0x200A) || (u =? 0x2028) || (u =? 0x2029)
   || (u =? 0x202F) || (u =? 0x205F) || (u =? 0x3000) || (u =? 0xFEFF))%N.

Fixpoint trimStart (s : ustring) : ustring :=
  match s with
  | [] => []
  | u :: rest => if isWhiteSpace u then trimStart rest else s
  end.

Fixpoint trimEnd (s : ustring) : ustring :=
  match s with
  | [] => []
  | u :: rest =>
      match trimEnd rest with
      | [] => if isWhiteSpace u then [] else [u]
      | kept => u :: kept
      end
  end.

(** [s.trim()] *)
Definition trim (s : ustring) : ustring := trimEnd (trimStart s).

(** [s.split(",")]; the comma is the code unit 44. *)
Fixpoint split_comma (s : ustring) : list ustring :=
  match s with
  | [] => [[]]
  | u :: rest =>
      if (u =? 44)%N then [] :: split_comma rest
      else match split_comma rest with
           | piece :: pieces => (u :: piece) :: pieces
           | [] => [[u]]
           end
  end.

(** [parseIngredients] on any string.  [String.prototype.toLowerCase] is
    the function of the host, with the case mappings of Unicode: it is a
    parameter. *)
Definition parseIngredients (toLowerCase : ustring -> ustring) (raw : ustring)
  : list ustring :=
  List.filter (fun s => (0 <? length s)%nat)
    (List.map (fun s => toLowerCase (trim s)) (split_comma raw)).

(** [toLowerCase] as it is on strings of code units below U+0100: unit by
    unit, A-Z and the Latin-1 capitals moved up by 32. *)
Definition lowerUnit (u : N) : N :=
  if ((65 <=? u) && (u <=? 90) || (192 <=? u) && (u <=? 222) && negb (u =? 215))%N
  then (u + 32)%N else u.

Definition toLowerCaseLatin1 (s : ustring) : ustring := List.map lowerUnit s.

(** The code units of a string of the 8-bit embedding. *)
Definition units (s : string) : ustring := List.map N_of_ascii (list_ascii_of_string s).

End Utf16.

(** The white space of ECMAScript, unit by unit, for the statements. *)
Definition whiteSpaceUnits : list N :=
  [ 9; 10; 11; 12; 13; 32; 160; 5760;
    8192; 8193; 8194; 8195; 8196; 8197; 8198; 8199; 8200; 8201; 8202;
    8232; 8233; 8239; 8287; 12288; 65279 ]%N.

Definition whiteUnit (u : N) : Prop := In u whiteSpaceUnits.
Definition blank (s : Utf16.ustring) : Prop := Forall whiteUnit s.
(** No white space at the start and none at the end. *)
Definition tight (s : Utf16.ustring) : Prop :=
  (forall u rest, s = u :: rest -> ~ whiteUnit u)
  /\ (forall init u, s = init ++ [u] -> ~ whiteUnit u).
(** [core] is [piece] without the white space around it. *)
Definition trimmedOf (piece core : Utf16.ustring) : Prop :=
  exists before after,
    piece = before ++ core ++ after /\ blank before /\ blank after /\ tight core.
Definition commaFree (s : Utf16.ustring) : Prop := ~ In 44%N s.
(** The pieces put together with [sep] between them. *)
Fixpoint joinUnits (sep : Utf16.ustring) (pieces : list Utf16.ustring) : Utf16.ustring :=
  match pieces with
  | [] => []
  | [piece] => piece
  | piece :: rest => piece ++ sep ++ joinUnits sep rest
  end.
Definition notEmpty (s : Utf16.ustring) : bool :=
  match s with [] => false | _ :: _ => true end.

(** * Properties *)

(** ** Characters and strings *)

Section Strings.

Local Ltac by_cases_on c :=
  destruct c as [[] [] [] [] [] [] [] []]; vm_compute; try reflexivity; try congruence.

Lemma toLowerChar_not_upper (c : ascii) : isUpperCase (toLowerChar c) = false.
Proof. by_cases_on c. Qed.

Lemma toLowerChar_idempotent (c : ascii) : toLowerChar (toLowerChar c) = toLowerChar c.
Proof. by_cases_on c. Qed.

Lemma toLowerChar_white (c : ascii) : isWhiteSpace (toLowerChar c) = isWhiteSpace c.
Proof. by_cases_on c. Qed.

Lemma toLowerCase_idempotent (s : string) : toLowerCase (toLowerCase s) = toLowerCase s.
Proof.
  induction s as [|c s IH]; simpl; [reflexivity|].
  now rewrite toLowerChar_idempotent, IH.
Qed.

Lemma toLowerCase_no_capital (s : string) : all_chars notUpper (toLowerCase s) = true.
Proof.
  induction s as [|c s IH]; simpl; [reflexivity|].
  unfold notUpper at 1. now rewrite toLowerChar_not_upper, IH.
Qed.

Lemma toLowerCase_first (s : string) :
  first (toLowerCase s) = option_map toLowerChar (first s).
Proof. destruct s; reflexivity. Qed.

Lemma toLowerCase_last (s : string) :
  last (toLowerCase s) = option_map toLowerChar (last s).
Proof.
  induction s as [|c s IH]; [reflexivity|].
  destruct s as [|d s]; [reflexivity|].
  change (last (toLowerCase (String d s)) = option_map toLowerChar (last (String d s))).
  exact IH.
Qed.

Lemma toLowerCase_empty (s : string) : toLowerCase s = "" -> s = "".
Proof. destruct s; simpl; congruence. Qed.

Lemma trimStart_first (s : string) (c : ascii) :
  first (trimStart s) = Some c -> isWhiteSpace c = false.
Proof.
  induction s as [|d s IH]; simpl; [discriminate|].
  destruct (isWhiteSpace d) eqn:Hd; [exact IH|].
  simpl. intros [= <-]. exact Hd.
Qed.

Lemma trimEnd_cons (c : ascii) (s : string) :
  trimEnd (String c s) =
    if String.eqb (trimEnd s) "" then
      if isWhiteSpace c then "" else String c ""
    else String c (trimEnd s).
Proof. simpl. destruct (trimEnd s); reflexivity. Qed.

Lemma trimEnd_last (s : string) (c : ascii) :
  last (trimEnd s) = Some c -> isWhiteSpace c = false.
Proof.
  induction s as [|d s IH]; [discriminate|].
  rewrite trimEnd_cons.
  destruct (trimEnd s) as [|e t] eqn:Ht.
  - simpl. destruct (isWhiteSpace d) eqn:Hd; simpl; [discriminate|].
    intros [= <-]. exact Hd.
  - simpl String.eqb. cbv iota. exact IH.
Qed.

Lemma trimEnd_first (s : string) (c : ascii) :
  first (trimEnd s) = Some c -> first s = Some c.
Proof.
  destruct s as [|d s]; [discriminate|].
  rewrite trimEnd_cons.
  destruct (trimEnd s) as [|e t].
  - simpl. destruct (isWhiteSpace d); simpl; [discriminate | trivial].
  - simpl. trivial.
Qed.

Lemma trim_first (s : string) (c : ascii) :
  first (trim s) = Some c -> isWhiteSpace c = false.
Proof. intros H. apply (trimStart_first s), trimEnd_first, H. Qed.

Lemma trim_last (s : string) (c : ascii) :
  last (trim s) = Some c -> isWhiteSpace c = false.
Proof. apply trimEnd_last. Qed.

Lemma trimStart_fixed (s : string) :
  (forall c, first s = Some c -> isWhiteSpace c = false) -> trimStart s = s.
Proof.
  destruct s as [|d s]; [reflexivity|].
  intros H. simpl. now rewrite (H d eq_refl).
Qed.

Lemma trimEnd_fixed (s : string) :
  (forall c, last s = Some c -> isWhiteSpace c = false) -> trimEnd s = s.
Proof.
  induction s as [|d s IH]; [reflexivity|].
  intros H. rewrite trimEnd_cons.
  destruct s as [|e t].
  - simpl. now rewrite (H d eq_refl).
  - rewrite IH by exact H. reflexivity.
Qed.

Lemma normalize_normalized (piece : string) :
  normalize piece <> "" -> normalized (normalize piece).
Proof.
  intros Hne. unfold normalize in *.
  assert (Hfirst : forall c, first (toLowerCase (trim piece)) = Some c ->
                             isWhiteSpace c = false).
  { intros c. rewrite toLowerCase_first.
    destruct (first (trim piece)) as [d|] eqn:Hd; simpl; [|discriminate].
    intros [= <-]. rewrite toLowerChar_white. exact (trim_first _ _ Hd). }
  assert (Hlast : forall c, last (toLowerCase (trim piece)) = Some c ->
                            isWhiteSpace c = false).
  { intros c. rewrite toLowerCase_last.
    destruct (last (trim piece)) as [d|] eqn:Hd; simpl; [|discriminate].
    intros [= <-]. rewrite toLowerChar_white. exact (trim_last _ _ Hd). }
  split; auto using toLowerCase_idempotent, toLowerCase_no_capital.
  set (t := toLowerCase (trim piece)) in *.
  unfold trim. rewrite (trimStart_fixed t Hfirst). exact (trimEnd_fixed t Hlast).
Qed.

Lemma nonEmpty_true (s : string) : nonEmpty s = true <-> s <> "".
Proof.
  destruct s; unfold nonEmpty; cbn; split; intros H; try discriminate; try reflexivity.
  now contradiction H.
Qed.

(** [split] and [join] *)

Lemma split_comma_not_nil (s : string) : split_comma s <> [].
Proof.
  induction s as [|c s IH]; simpl; [discriminate|].
  destruct (Ascii.eqb c ","); [discriminate|].
  destruct (split_comma s); discriminate.
Qed.

Lemma join_cons_char (c : ascii) (piece : string) (pieces : list string) :
  join "," (String c piece :: pieces) = String c (join "," (piece :: pieces)).
Proof. unfold join. simpl. destruct pieces; reflexivity. Qed.

Lemma join_split_comma (s : string) : join "," (split_comma s) = s.
Proof.
  induction s as [|c s IH]; [reflexivity|].
  simpl split_comma.
  destruct (Ascii.eqb c ",") eqn:Hc.
  - apply Ascii.eqb_eq in Hc. subst c.
    destruct (split_comma s) as [|p ps] eqn:Hs; [now apply split_comma_not_nil in Hs|].
    unfold join in *. simpl in *. now rewrite IH.
  - destruct (split_comma s) as [|p ps] eqn:Hs; [now apply split_comma_not_nil in Hs|].
    rewrite join_cons_char. now rewrite IH.
Qed.

Lemma split_comma_no_comma (s : string) :
  Forall (fun piece => noComma piece = true) (split_comma s).
Proof.
  induction s as [|c s IH]; simpl.
  - repeat constructor.
  - destruct (Ascii.eqb c ",") eqn:Hc.
    + constructor; [reflexivity | exact IH].
    + destruct (split_comma s) as [|p ps]; inversion IH; subst.
      * repeat constructor. unfold noComma. simpl. now rewrite Hc.
      * constructor; [|assumption].
        unfold noComma in *. simpl. rewrite Hc. simpl. assumption.
Qed.

End Strings.

(** ** Parsing and validation *)

Lemma parseIngredients_normalized (raw : string) :
  Forall normalized (parseIngredients raw).
Proof.
  unfold parseIngredients.
  apply List.Forall_forall. intros t Ht.
  apply filter_In in Ht. destruct Ht as [Hin Hlen].
  apply in_map_iff in Hin. destruct Hin as [piece [<- _]].
  apply normalize_normalized.
  apply nonEmpty_true. exact Hlen.
Qed.

(** On the 8-bit embedding: the tokens are normalized, and they are the
    pieces between the commas of the input, each trimmed and lower-cased,
    with the empty ones left out. *)
Lemma parseIngredients_tokens (raw : string) :
  Forall normalized (parseIngredients raw)
  /\ join "," (split_comma raw) = raw
  /\ Forall (fun piece => noComma piece = true) (split_comma raw)
  /\ parseIngredients raw = List.filter nonEmpty (List.map normalize (split_comma raw)).
Proof.
  split; [apply parseIngredients_normalized|].
  split; [apply join_split_comma|].
  split; [apply split_comma_no_comma | reflexivity].
Qed.

(** The parser keeps repeated tokens and the order of the input. *)
Example parseIngredients_keeps_repeats :
  parseIngredients " Rice , BEEF,, rice ,  ,Egg" = ["rice"; "beef"; "rice"; "egg"].
Proof. reflexivity. Qed.

Lemma parseIngredients_truthy (raw : string) :
  Forall (fun t => truthy t = true) (parseIngredients raw).
Proof.
  eapply List.Forall_impl; [|exact (parseIngredients_normalized raw)].
  intros t [Hne _ _ _ _ _]. destruct t; [now contradiction Hne | reflexivity].
Qed.

(** On tokens that are not empty the checks are: no token, more than six
    tokens, a short token; the first that applies decides. *)
Lemma validateIngredients_cases (tokens : list string) :
  Forall (fun t => truthy t = true) tokens ->
  validateIngredients tokens =
    if (length tokens =? 0)%nat then Some EmptyIngredientList
    else if (6 <? length tokens)%nat then Some TooManyIngredients
    else match List.find isShort tokens with
         | Some t => Some (IngredientTooShort t)
         | None => None
         end.
Proof.
  intros Hall. unfold validateIngredients.
  destruct (length tokens =? 0)%nat; [reflexivity|].
  destruct (6 <? length tokens)%nat; [reflexivity|].
  change (fun i => (String.length i <? 2)%nat) with isShort.
  destruct (List.find isShort tokens) as [t|] eqn:Hfind; [|reflexivity].
  apply find_some in Hfind. destruct Hfind as [Hin _].
  rewrite List.Forall_forall in Hall. now rewrite (Hall t Hin).
Qed.

Lemma isShort_true (t : string) : isShort t = true <-> String.length t < 2.
Proof. unfold isShort. apply Nat.ltb_lt. Qed.

Lemma find_isShort_Exists (tokens : list string) :
  (exists t, List.find isShort tokens = Some t)
  <-> Exists (fun t => String.length t < 2) tokens.
Proof.
  rewrite List.Exists_exists. split.
  - intros [t Ht]. apply find_some in Ht. exists t.
    destruct Ht as [Hin Hs]. split; [exact Hin | now apply isShort_true].
  - intros [t [Hin Hs]].
    destruct (List.find isShort tokens) as [t'|] eqn:Hfind; [now exists t'|].
    apply (find_none _ _ Hfind) in Hin.
    apply isShort_true in Hs. congruence.
Qed.

Lemma find_isShort_None (tokens : list string) :
  List.find isShort tokens = None
  <-> Forall (fun t => 2 <= String.length t) tokens.
Proof.
  rewrite List.Forall_forall. split.
  - intros Hfind t Hin. apply (find_none _ _ Hfind) in Hin.
    unfold isShort in Hin. apply Nat.ltb_ge in Hin. exact Hin.
  - intros Hall.
    destruct (List.find isShort tokens) as [t|] eqn:Hfind; [|reflexivity].
    apply find_some in Hfind. destruct Hfind as [Hin Hs].
    apply isShort_true in Hs. specialize (Hall t Hin). lia.
Qed.

Local Ltac settle :=
  repeat match goal with
         | H : exists _, _ |- _ => destruct H
         | H : _ /\ _ |- _ => destruct H
         | H : Some _ = Some _ |- _ => injection H as H; try subst
         end;
  try discriminate; try lia; try congruence; eauto.

(** C5.  For the tokens of any input, the validation fails with
    [EmptyIngredientList] exactly when there is no token, with
    [TooManyIngredients] exactly when there are more than six, and, these
    two checks coming first, with [IngredientTooShort] exactly when some
    token has fewer than two characters; the failure carries the first
    such token.  Otherwise, and only then, the validation succeeds. *)
Theorem validateIngredients_parse (raw : string) :
  let tokens := parseIngredients raw in
  (validateIngredients tokens = Some EmptyIngredientList <-> length tokens = 0)
  /\ (validateIngredients tokens = Some TooManyIngredients <-> 6 < length tokens)
  /\ (forall t, validateIngredients tokens = Some (IngredientTooShort t)
                <-> 1 <= length tokens <= 6 /\ List.find isShort tokens = Some t)
  /\ ((exists t, validateIngredients tokens = Some (IngredientTooShort t))
      <-> 1 <= length tokens <= 6 /\ Exists (fun t => String.length t < 2) tokens)
  /\ (forall t, validateIngredients tokens = Some (IngredientTooShort t)
                -> In t tokens /\ String.length t < 2)
  /\ (validateIngredients tokens = None
      <-> 1 <= length tokens <= 6 /\ Forall (fun t => 2 <= String.length t) tokens)
  /\ validateIngredients tokens <> Some InvalidInput
  /\ (forall cause, validateIngredients tokens <> Some (LookupFailure cause)).
Proof.
  intros tokens.
  pose proof (validateIngredients_cases tokens (parseIngredients_truthy raw)) as Hv.
  rewrite <- find_isShort_Exists, <- find_isShort_None.
  destruct (length tokens =? 0)%nat eqn:H0;
    [apply Nat.eqb_eq in H0 | apply Nat.eqb_neq in H0];
    [| destruct (6 <? length tokens)%nat eqn:H6;
       [apply Nat.ltb_lt in H6 | apply Nat.ltb_ge in H6] ];
    rewrite Hv; clear Hv.
  - repeat (split || intro); settle.
  - repeat (split || intro); settle.
  - destruct (List.find isShort tokens) as [t0|] eqn:Hfind.
    + pose proof (find_some _ _ Hfind) as [Hin Hs]. apply isShort_true in Hs.
      repeat (split || intro); settle.
    + repeat (split || intro); settle.
Qed.

(** The order of the checks shows on seven tokens of which one is short,
    and the truthiness test of [validateIngredients] on an empty token,
    which the parser never produces. *)
Example validateIngredients_count_first :
  validateIngredients (parseIngredients "a,bb,cc,dd,ee,ff,gg") = Some TooManyIngredients.
Proof. reflexivity. Qed.

Example validateIngredients_empty_token :
  validateIngredients [""; "rice"] = None.
Proof. reflexivity. Qed.

(** ** The intersection of the lists *)

Section Intersection.

Implicit Types (lists : list (list Meal)) (meals : list Meal).

Lemma intersectTwoLists_hasId (listA listB : list Meal) :
  intersectTwoLists listA listB =
    List.filter (fun mealA => hasId (idMeal mealA) listB) listA.
Proof. reflexivity. Qed.

(** With fewer than two lists the result needs one call and no
    intersection, whatever the index. *)
Lemma intersectAllCounting_nil (fuel index : nat) :
  intersectAllCounting (S fuel) [] index = Some ([], 0).
Proof. reflexivity. Qed.

Lemma intersectAllCounting_single (fuel index : nat) (only : list Meal) :
  intersectAllCounting (S fuel) [only] index = Some (only, 0).
Proof. reflexivity. Qed.

(** The counting function computes the result of the plain one. *)
Lemma intersectAllCounting_result (fuel : nat) lists (index : nat) :
  option_map fst (intersectAllCounting fuel lists index)
  = intersectAllRecursively fuel lists index.
Proof.
  revert index. induction fuel as [|fuel IH]; intros index; [reflexivity|].
  cbn [intersectAllCounting intersectAllRecursively].
  destruct (length lists =? 0)%nat; [reflexivity|].
  destruct (length lists =? 1)%nat; [now destruct (nth_error lists 0)|].
  destruct (index =? length lists - 1)%nat; [now destruct (nth_error lists index)|].
  rewrite <- IH.
  destruct (intersectAllCounting fuel lists (index + 1)) as [[rest calls]|]; simpl;
    [|reflexivity].
  now destruct (nth_error lists index).
Qed.

Lemma skipn_nth_error {A : Type} (l : list A) (i : nat) (x : A) :
  nth_error l i = Some x -> skipn i l = x :: skipn (S i) l.
Proof.
  revert i. induction l as [|y l IH]; intros [|i]; simpl; try discriminate.
  - now intros [= ->].
  - intros H. now rewrite (IH i H).
Qed.

Lemma nth_error_in_range {A : Type} (l : list A) (i : nat) :
  i < length l -> exists x, nth_error l i = Some x.
Proof.
  intros H. destruct (nth_error l i) as [x|] eqn:E; [now exists x|].
  apply nth_error_None in E. lia.
Qed.

(** From an index inside the array the recursion returns, given one
    level of calls for each list from the index on, and builds the
    nesting that has the last list innermost. *)
Lemma intersectAllRecursively_from lists (togo : nat) :
  2 <= length lists ->
  forall (index fuel : nat),
    index + togo + 1 = length lists ->
    togo < fuel ->
    intersectAllRecursively fuel lists index
    = Some (intersectRightNested (skipn index lists)).
Proof.
  intros Hlen. induction togo as [|togo IH]; intros index fuel Hidx Hfuel.
  - destruct fuel as [|fuel]; [lia|]. cbn [intersectAllRecursively].
    destruct (Nat.eqb_spec (length lists) 0) as [E|_]; [lia|].
    destruct (Nat.eqb_spec (length lists) 1) as [E|_]; [lia|].
    destruct (Nat.eqb_spec index (length lists - 1)) as [_|E]; [|lia].
    destruct (nth_error_in_range lists index) as [x Hx]; [lia|].
    rewrite Hx, (skipn_nth_error _ _ _ Hx).
    rewrite skipn_all2 by lia. reflexivity.
  - destruct fuel as [|fuel]; [lia|]. cbn [intersectAllRecursively].
    destruct (Nat.eqb_spec (length lists) 0) as [E|_]; [lia|].
    destruct (Nat.eqb_spec (length lists) 1) as [E|_]; [lia|].
    destruct (Nat.eqb_spec index (length lists - 1)) as [E|_]; [lia|].
    rewrite (IH (index + 1) fuel) by lia.
    destruct (nth_error_in_range lists index) as [x Hx]; [lia|].
    rewrite Hx, (skipn_nth_error _ _ _ Hx).
    replace (index + 1) with (S index) by lia.
    destruct (nth_error_in_range lists (S index)) as [y Hy]; [lia|].
    rewrite (skipn_nth_error _ _ _ Hy). reflexivity.
Qed.

(** The call of [main] always returns. *)
Lemma intersectAll_returns lists :
  intersectAll lists = Some (intersectRightNested lists).
Proof.
  unfold intersectAll.
  destruct lists as [|first [|second rest]]; [reflexivity | reflexivity |].
  refine (intersectAllRecursively_from (first :: second :: rest) (S (length rest)) _ 0 _ _ _);
    simpl; lia.
Qed.

(** More fuel changes nothing. *)
Lemma intersectAllRecursively_enough (fuel : nat) lists :
  length lists <= fuel ->
  intersectAllRecursively (S fuel) lists 0 = intersectAll lists.
Proof.
  intros Hfuel. rewrite intersectAll_returns.
  destruct lists as [|first [|second rest]]; [reflexivity | reflexivity |].
  refine (intersectAllRecursively_from (first :: second :: rest) (S (length rest)) _ 0 _ _ _);
    simpl in *; lia.
Qed.

(** Membership of an identifier after a filter on identifiers. *)
Lemma hasId_filter (key : string) (keep : string -> bool) meals :
  hasId key (List.filter (fun meal => keep (idMeal meal)) meals)
  = hasId key meals && keep key.
Proof.
  induction meals as [|m meals IH]; [reflexivity|].
  cbn [List.filter]. destruct (keep (idMeal m)) eqn:Hk;
    unfold hasId in *; cbn [existsb]; rewrite IH;
    destruct (String.eqb_spec (idMeal m) key) as [E|E]; cbn [orb]; try reflexivity.
  - rewrite <- E, Hk. reflexivity.
  - rewrite <- E, Hk. now rewrite andb_false_r.
Qed.

Lemma filter_filter_andb {A : Type} (p q : A -> bool) (l : list A) :
  List.filter p (List.filter q l) = List.filter (fun x => q x && p x) l.
Proof.
  induction l as [|x l IH]; [reflexivity|].
  simpl. destruct (q x); simpl; [destruct (p x)|]; now rewrite IH.
Qed.

(** The nesting, with two lists or more, is the first list filtered:
    a record stays when its identifier is in every later list. *)
Lemma intersectRightNested_filter (first : list Meal) lists :
  lists <> [] ->
  intersectRightNested (first :: lists)
  = List.filter (fun meal => inAll (idMeal meal) lists) first.
Proof.
  revert first. induction lists as [|second rest IH]; intros first Hne; [congruence|].
  destruct rest as [|third rest].
  - simpl. rewrite intersectTwoLists_hasId.
    apply filter_ext. intros a. now rewrite andb_true_r.
  - change (intersectRightNested (first :: second :: third :: rest))
      with (intersectTwoLists first (intersectRightNested (second :: third :: rest))).
    rewrite IH by discriminate.
    rewrite intersectTwoLists_hasId.
    apply filter_ext. intros a.
    rewrite (hasId_filter (idMeal a) (fun key => inAll key (third :: rest))).
    reflexivity.
Qed.

(** The loop over the lists is the same filter of the first list. *)
Lemma fold_left_intersect_filter (first : list Meal) lists :
  List.fold_left intersectTwoLists lists first
  = List.filter (fun meal => inAll (idMeal meal) lists) first.
Proof.
  revert first. induction lists as [|second rest IH]; intros first.
  - simpl. induction first as [|m first IHf]; [reflexivity|].
    simpl. now rewrite <- IHf.
  - simpl. rewrite IH, intersectTwoLists_hasId, filter_filter_andb. reflexivity.
Qed.

Lemma hasId_In (key : string) meals : hasId key meals = true <-> In key (ids meals).
Proof.
  unfold hasId, ids. rewrite existsb_exists, in_map_iff.
  split; intros [m [H1 H2]]; exists m.
  - apply String.eqb_eq in H2. now split.
  - split; [exact H2 | now apply String.eqb_eq].
Qed.

Lemma elem_of_idset (key : string) meals : key ∈ idset meals <-> In key (ids meals).
Proof. unfold idset. rewrite elem_of_list_to_set. apply list_elem_of_In. Qed.

Lemma inAll_In (key : string) lists :
  inAll key lists = true <-> forall meals, In meals lists -> key ∈ idset meals.
Proof.
  unfold inAll. rewrite forallb_forall.
  split; intros H meals Hin.
  - apply elem_of_idset, hasId_In, H, Hin.
  - apply hasId_In, elem_of_idset, H, Hin.
Qed.

End Intersection.

(** ** The map and the deduplication *)

Section Dedupe.

Context {V : Type}.
Implicit Types (m : JsMap.t V) (k key : string) (v : V).

Lemma keys_set_present k v m :
  In k (JsMap.keys m) -> JsMap.keys (JsMap.set k v m) = JsMap.keys m.
Proof.
  induction m as [|[k0 v0] m IH]; simpl; [tauto|].
  intros Hin. destruct (String.eqb_spec k0 k) as [E|E]; [reflexivity|].
  simpl. f_equal. apply IH. destruct Hin; [congruence | assumption].
Qed.

Lemma keys_set_absent k v m :
  ~ In k (JsMap.keys m) -> JsMap.keys (JsMap.set k v m) = JsMap.keys m ++ [k].
Proof.
  induction m as [|[k0 v0] m IH]; simpl; [reflexivity|].
  intros Hin. destruct (String.eqb_spec k0 k) as [E|E]; [tauto|].
  simpl. f_equal. apply IH. tauto.
Qed.

Lemma get_set k key v m :
  JsMap.get key (JsMap.set k v m) = if String.eqb k key then Some v else JsMap.get key m.
Proof.
  induction m as [|[k0 v0] m IH]; simpl; [reflexivity|].
  destruct (String.eqb_spec k0 k) as [E|E]; simpl.
  - subst k0. now destruct (String.eqb k key).
  - rewrite IH.
    destruct (String.eqb_spec k0 key) as [E'|E']; [|reflexivity].
    destruct (String.eqb_spec k key) as [E''|E'']; [congruence | reflexivity].
Qed.

Lemma get_In key v m : JsMap.get key m = Some v -> In (key, v) m.
Proof.
  induction m as [|[k0 v0] m IH]; simpl; [discriminate|].
  destruct (String.eqb_spec k0 key) as [E|E].
  - intros [= ->]. left. now subst.
  - intros H. right. now apply IH.
Qed.

Lemma In_get key v m :
  List.NoDup (JsMap.keys m) -> In (key, v) m -> JsMap.get key m = Some v.
Proof.
  induction m as [|[k0 v0] m IH]; simpl; [tauto|].
  intros Hnd Hin. apply NoDup_cons_iff in Hnd. destruct Hnd as [Hk0 Hnd].
  destruct Hin as [[= -> ->]|Hin].
  - now rewrite String.eqb_refl.
  - destruct (String.eqb_spec k0 key) as [E|E]; [|now apply IH].
    exfalso. apply Hk0. subst k0. unfold JsMap.keys.
    apply in_map_iff. now exists (key, v).
Qed.

End Dedupe.

Section FirstSeen.

Lemma absentFrom_false (seen : list string) (k : string) :
  absentFrom seen k = false <-> In k seen.
Proof.
  unfold absentFrom. rewrite negb_false_iff, existsb_exists. split.
  - intros [x [Hin E]]. apply String.eqb_eq in E. now subst.
  - intros Hin. exists k. split; [exact Hin | apply String.eqb_refl].
Qed.

Lemma absentFrom_true (seen : list string) (k : string) :
  absentFrom seen k = true <-> ~ In k seen.
Proof.
  rewrite <- absentFrom_false. destruct (absentFrom seen k); split; intros; auto; congruence.
Qed.

Lemma firstSeen_In (keys : list string) (k : string) :
  In k (firstSeen keys) <-> In k keys.
Proof.
  induction keys as [|k0 keys IH]; simpl; [tauto|].
  rewrite filter_In, IH.
  destruct (String.eqb_spec k k0) as [E|E]; simpl; split; intros; intuition congruence.
Qed.

Lemma firstSeen_NoDup (keys : list string) : List.NoDup (firstSeen keys).
Proof.
  induction keys as [|k0 keys IH]; simpl; constructor.
  - rewrite filter_In. intros [_ H]. now rewrite String.eqb_refl in H.
  - now apply List.NoDup_filter.
Qed.

Lemma firstSeen_length (keys : list string) : length (firstSeen keys) <= length keys.
Proof.
  induction keys as [|k0 keys IH]; simpl; [lia|].
  pose proof (List.filter_length_le (fun k' => negb (String.eqb k' k0)) (firstSeen keys)).
  lia.
Qed.

(** Without repetition nothing is removed. *)
Lemma firstSeen_NoDup_id (keys : list string) : List.NoDup keys -> firstSeen keys = keys.
Proof.
  induction keys as [|k0 keys IH]; simpl; [reflexivity|].
  intros Hnd. apply NoDup_cons_iff in Hnd. destruct Hnd as [Hk0 Hnd].
  rewrite IH by assumption. f_equal.
  apply List.forallb_filter_id. apply forallb_forall. intros k Hin.
  destruct (String.eqb_spec k k0) as [E|E]; [congruence | reflexivity].
Qed.

End FirstSeen.

Section BuildMealMap.

Implicit Types (map : JsMap.t Meal) (meals : list Meal) (key : string).

Local Abbreviation step := (fun map meal => JsMap.set (idMeal meal) meal map).

(** The keys after the loop: those of the map it started from, then the
    new identifiers in the order of their first appearance. *)
Lemma fold_set_keys meals map :
  JsMap.keys (List.fold_left step meals map)
  = JsMap.keys map ++ List.filter (absentFrom (JsMap.keys map)) (firstSeen (ids meals)).
Proof.
  revert map. induction meals as [|a meals IH]; intros map.
  - simpl. now rewrite app_nil_r.
  - cbn [List.fold_left ids List.map firstSeen List.filter]. rewrite IH.
    fold (ids meals).
    destruct (absentFrom (JsMap.keys map) (idMeal a)) eqn:Ha.
    + apply absentFrom_true in Ha.
      rewrite (keys_set_absent _ _ _ Ha), <- app_assoc. cbn [app]. do 2 f_equal.
      rewrite filter_filter_andb. apply filter_ext_in. intros k _.
      unfold absentFrom. rewrite existsb_app. cbn [existsb].
      rewrite orb_false_r, negb_orb. apply andb_comm.
    + apply absentFrom_false in Ha.
      rewrite (keys_set_present _ _ _ Ha). f_equal.
      rewrite filter_filter_andb. apply filter_ext_in. intros k _.
      destruct (String.eqb_spec k (idMeal a)) as [E|E]; [|reflexivity].
      subst k. cbn [negb andb]. now apply absentFrom_false.
Qed.

Lemma find_app_last (p : Meal -> bool) meals (a : Meal) :
  List.find p (meals ++ [a])
  = match List.find p meals with
    | Some r => Some r
    | None => if p a then Some a else None
    end.
Proof.
  induction meals as [|b meals IH]; [reflexivity|].
  simpl. destruct (p b); [reflexivity | exact IH].
Qed.

(** The value under a key after the loop: the last record of the list
    with that identifier, else what the map held before. *)
Lemma fold_set_get meals map key :
  JsMap.get key (List.fold_left step meals map)
  = match lastWithId key meals with
    | Some r => Some r
    | None => JsMap.get key map
    end.
Proof.
  revert map. induction meals as [|a meals IH]; intros map; [reflexivity|].
  cbn [List.fold_left]. rewrite IH. unfold lastWithId. cbn [rev].
  rewrite find_app_last.
  destruct (List.find _ (rev meals)); [reflexivity|].
  rewrite get_set. now destruct (String.eqb (idMeal a) key).
Qed.

Lemma buildMealMap_keys meals : JsMap.keys (buildMealMap meals) = firstSeen (ids meals).
Proof.
  unfold buildMealMap. rewrite fold_set_keys. simpl.
  apply List.forallb_filter_id. apply forallb_forall. reflexivity.
Qed.

Lemma buildMealMap_get meals key :
  JsMap.get key (buildMealMap meals) = lastWithId key meals.
Proof.
  unfold buildMealMap. rewrite fold_set_get. now destruct (lastWithId key meals).
Qed.

Lemma lastWithId_id meals key (r : Meal) :
  lastWithId key meals = Some r -> idMeal r = key /\ In r meals.
Proof.
  unfold lastWithId. intros H. apply find_some in H. destruct H as [Hin E].
  apply String.eqb_eq in E. split; [exact E | now apply in_rev].
Qed.

Lemma buildMealMap_entries meals key (r : Meal) :
  In (key, r) (buildMealMap meals) <-> lastWithId key meals = Some r.
Proof.
  rewrite <- buildMealMap_get. split.
  - apply In_get. rewrite buildMealMap_keys. apply firstSeen_NoDup.
  - apply get_In.
Qed.

Lemma dedupe_ids meals : ids (dedupe meals) = firstSeen (ids meals).
Proof.
  rewrite <- buildMealMap_keys. unfold dedupe, ids, JsMap.values, JsMap.keys.
  rewrite map_map. apply map_ext_in. intros [key r] Hin.
  apply buildMealMap_entries, lastWithId_id in Hin. now destruct Hin.
Qed.

Lemma dedupe_In meals (r : Meal) :
  In r (dedupe meals) <-> lastWithId (idMeal r) meals = Some r.
Proof.
  unfold dedupe, JsMap.values. rewrite in_map_iff. split.
  - intros [[key r'] [E Hin]]. simpl in E. subst r'.
    apply buildMealMap_entries in Hin.
    pose proof (lastWithId_id _ _ _ Hin) as [E _]. now rewrite E.
  - intros H. exists (idMeal r, r). split; [reflexivity|].
    now apply buildMealMap_entries.
Qed.

Lemma dedupe_idset meals : idset (dedupe meals) = idset meals.
Proof.
  apply set_eq. intros key.
  rewrite !elem_of_idset, dedupe_ids. apply firstSeen_In.
Qed.

Lemma dedupe_length meals : length (dedupe meals) <= length meals.
Proof.
  rewrite <- (length_map idMeal (dedupe meals)), <- (length_map idMeal meals).
  fold (ids (dedupe meals)). fold (ids meals). rewrite dedupe_ids.
  apply firstSeen_length.
Qed.

Lemma sublist_filter (p : Meal -> bool) meals : sublist (List.filter p meals) meals.
Proof.
  induction meals as [|a meals IH]; simpl; [constructor|].
  destruct (p a); now constructor.
Qed.

End BuildMealMap.

(** ** The claims on the intersection and the deduplication *)

(** C9.  For no list at all [intersectAll] returns the empty list, and
    for a single list it returns that list as it is, with its repetitions
    and in its order; in both cases [intersectTwoLists] is not called, as
    the call counter of the instrumented function, which computes the
    same results, shows. *)
Theorem intersectAll_base_cases (only : list Meal) :
  intersectAll [] = Some []
  /\ intersectAll [only] = Some only
  /\ (forall fuel index, intersectAllCounting (S fuel) [] index = Some ([], 0))
  /\ (forall fuel index, intersectAllCounting (S fuel) [only] index = Some (only, 0))
  /\ (forall fuel lists index,
        option_map fst (intersectAllCounting fuel lists index)
        = intersectAllRecursively fuel lists index).
Proof.
  repeat split.
  - apply intersectAllCounting_result.
Qed.

(** A list with a repeated identifier, out of order, comes back as it is. *)
Example intersectAll_single_unchanged :
  intersectAll [[mkMeal "7" "Soup" ""; mkMeal "3" "Pie" ""; mkMeal "7" "Soup" ""]]
  = Some [mkMeal "7" "Soup" ""; mkMeal "3" "Pie" ""; mkMeal "7" "Soup" ""].
Proof. reflexivity. Qed.

(** C4.  For two lists or more, [intersectAll] returns the first list
    filtered: a record of the first list stays exactly when its identifier
    occurs in every later list, and the records that stay keep the order
    they had in the first list.  The result is built from the right: the
    last list is the innermost argument, and each list to its left is
    intersected with what the lists to its right gave. *)
Theorem intersectAll_first_list_filtered
    (first second : list Meal) (rest : list (list Meal)) :
  let lists := first :: second :: rest in
  let result := List.filter (fun meal => inAll (idMeal meal) (second :: rest)) first in
  intersectAll lists = Some result
  /\ sublist result first
  /\ result = intersectTwoLists first (intersectRightNested (second :: rest))
  /\ intersectAll (second :: rest) = Some (intersectRightNested (second :: rest)).
Proof.
  intros lists result. subst lists result.
  rewrite !intersectAll_returns.
  rewrite <- (intersectRightNested_filter first (second :: rest)) by discriminate.
  repeat split.
  rewrite intersectRightNested_filter by discriminate.
  apply sublist_filter.
Qed.

(** C7.  For every sequence of lists, the recursion from the right
    returns what the loop from the left returns, which starts with the
    first list and intersects it with each later list in turn: the same
    records in the same order. *)
Theorem intersectAll_left_fold (lists : list (list Meal)) :
  intersectAll lists = Some (intersectAllLeftFold lists).
Proof.
  rewrite intersectAll_returns. f_equal.
  destruct lists as [|first [|second rest]]; [reflexivity | reflexivity |].
  rewrite intersectRightNested_filter by discriminate.
  unfold intersectAllLeftFold. now rewrite fold_left_intersect_filter.
Qed.

(** C1.  For every sequence of lists, the identifiers of
    [intersectAll lists] are exactly the identifiers that occur in every
    one of the lists (for no list at all there is none), and the
    deduplication keeps this set of identifiers: it only makes the list
    shorter, leaving every identifier once. *)
Theorem intersectAll_identifier_set (lists : list (list Meal)) :
  exists result,
    intersectAll lists = Some result
    /\ (forall key, key ∈ idset result
                    <-> lists <> [] /\ forall meals, In meals lists -> key ∈ idset meals)
    /\ idset (dedupe result) = idset result
    /\ (forall key, key ∈ idset (dedupe result)
                    <-> lists <> [] /\ forall meals, In meals lists -> key ∈ idset meals)
    /\ List.NoDup (ids (dedupe result))
    /\ length (dedupe result) <= length result.
Proof.
  exists (intersectRightNested lists).
  assert (Hset : forall key, key ∈ idset (intersectRightNested lists)
                   <-> lists <> [] /\ forall meals, In meals lists -> key ∈ idset meals).
  { intros key. destruct lists as [|first [|second rest]].
    - simpl. rewrite elem_of_idset. simpl. tauto.
    - simpl. split.
      + intros H. split; [discriminate|]. intros meals [<-|[]]. exact H.
      + intros [_ H]. apply H. now left.
    - rewrite intersectRightNested_filter by discriminate.
      rewrite elem_of_idset. unfold ids. rewrite in_map_iff. split.
      + intros [m [<- Hm]]. apply filter_In in Hm. destruct Hm as [Hin Hall].
        split; [discriminate|]. intros meals [<-|Hrest].
        * apply elem_of_idset. unfold ids. apply in_map_iff. now exists m.
        * revert meals Hrest. now apply inAll_In.
      + intros [_ H].
        assert (Hfirst : key ∈ idset first) by (apply H; now left).
        apply elem_of_idset in Hfirst. unfold ids in Hfirst.
        apply in_map_iff in Hfirst. destruct Hfirst as [m [<- Hin]].
        exists m. split; [reflexivity|]. apply filter_In. split; [exact Hin|].
        apply inAll_In. intros meals Hmeals. apply H. now right. }
  split; [apply intersectAll_returns|].
  split; [exact Hset|].
  split; [apply dedupe_idset|].
  split; [intros key; rewrite dedupe_idset; apply Hset|].
  split; [rewrite dedupe_ids; apply firstSeen_NoDup | apply dedupe_length].
Qed.

(** The example of the specification: the lists with the identifiers
    A B C, B C D and C B have the intersection B C. *)
Example intersectAll_example :
  option_map ids (intersectAll
    [ [mkMeal "A" "a" ""; mkMeal "B" "b" ""; mkMeal "C" "c" ""];
      [mkMeal "B" "b" ""; mkMeal "C" "c" ""; mkMeal "D" "d" ""];
      [mkMeal "C" "c" ""; mkMeal "B" "b" ""] ])
  = Some ["B"; "C"].
Proof. reflexivity. Qed.

(** C2, as the code has it.  For every sequence of records, the
    deduplication gives one record for each identifier, the identifiers
    in the order of their first appearance; the record kept for an
    identifier is the last record of the sequence that carries it: a later
    record with an identifier already seen takes the place of the earlier
    one and leaves the position as it was. *)
Theorem dedupe_first_position_last_record (meals : list Meal) :
  ids (dedupe meals) = firstSeen (ids meals)
  /\ List.NoDup (ids (dedupe meals))
  /\ (forall key, In key (ids (dedupe meals)) <-> In key (ids meals))
  /\ (forall r, In r (dedupe meals) <-> lastWithId (idMeal r) meals = Some r).
Proof.
  split; [apply dedupe_ids|].
  split; [rewrite dedupe_ids; apply firstSeen_NoDup|].
  split; [intros key; rewrite dedupe_ids; apply firstSeen_In|].
  apply dedupe_In.
Qed.

(** C2 as the specification states it fails: of two records with the
    same identifier the second is kept, not the first. *)
Lemma dedupe_first_record_not_kept :
  dedupe [mkMeal "52772" "Teriyaki Chicken" "a.jpg"; mkMeal "52772" "Chicken Teriyaki" "b.jpg"]
  = [mkMeal "52772" "Chicken Teriyaki" "b.jpg"]
  /\ firstWithId "52772"
       [mkMeal "52772" "Teriyaki Chicken" "a.jpg"; mkMeal "52772" "Chicken Teriyaki" "b.jpg"]
     = Some (mkMeal "52772" "Teriyaki Chicken" "a.jpg")
  /\ ~ (forall meals r, In r (dedupe meals) -> firstWithId (idMeal r) meals = Some r).
Proof.
  split; [reflexivity|]. split; [reflexivity|].
  intros H.
  specialize (H [mkMeal "52772" "Teriyaki Chicken" "a.jpg";
                 mkMeal "52772" "Chicken Teriyaki" "b.jpg"]
                (mkMeal "52772" "Chicken Teriyaki" "b.jpg")).
  simpl in H. specialize (H (or_introl eq_refl)). discriminate H.
Qed.

(** ** Running the statements *)

Section Running.

Lemma bind_run {A B : Type} (c : M A) (k : A -> M B) (w : world) :
  (c ≫= k) w =
    match c w with
    | (Return a, w') => k a w'
    | (Throw e, w') => (Throw e, w')
    | (Pending, w') => (Pending, w')
    | (Fault f, w') => (Fault f, w')
    end.
Proof. reflexivity. Qed.

Lemma ret_run {A : Type} (a : A) (w : world) : (mret a : M A) w = (Return a, w).
Proof. reflexivity. Qed.

Lemma bind_returns {A B : Type} (c : M A) (k : A -> M B) (w w' : world) (a : A) :
  c w = (Return a, w') -> (c ≫= k) w = k a w'.
Proof. intros H. now rewrite bind_run, H. Qed.

Lemma bind_throws {A B : Type} (c : M A) (k : A -> M B) (w w' : world) (e : error) :
  c w = (Throw e, w') -> (c ≫= k) w = (Throw e, w').
Proof. intros H. now rewrite bind_run, H. Qed.

Lemma emit_nil (w : world) : emit [] w = w.
Proof. destruct w. unfold emit, set_console. simpl. now rewrite app_nil_r. Qed.

Lemma emit_emit (xs ys : list event) (w : world) :
  emit ys (emit xs w) = emit (xs ++ ys) w.
Proof. unfold emit, set_console. simpl. now rewrite app_assoc. Qed.

Lemma log_run (line : string) (w : world) : log line w = (Return tt, emit [Log line] w).
Proof. reflexivity. Qed.

End Running.

(** ** The store of arrays *)

Section Store.

Implicit Types (w : world) (ref : nat) (arr : list Meal).

Lemma read_run ref arr w : heap w !! ref = Some arr -> read ref w = (Return arr, w).
Proof. intros H. unfold read. now rewrite H. Qed.

Lemma fresh_not_allocated (h : gmap nat (list Meal)) ref :
  is_Some (h !! ref) -> ref <> fresh (dom h).
Proof.
  intros Hsome ->. apply elem_of_dom in Hsome. exact (is_fresh (dom h) Hsome).
Qed.

Lemma array_slice_run ref (start stop_ : nat) arr w :
  heap w !! ref = Some arr ->
  array_slice ref start stop_ w = alloc (firstn (stop_ - start) (skipn start arr)) w.
Proof. intros H. unfold array_slice. now rewrite (bind_returns _ _ _ _ _ (read_run _ _ _ H)). Qed.

Lemma array_copy_run ref arr w :
  heap w !! ref = Some arr -> array_copy ref w = alloc arr w.
Proof.
  intros H. unfold array_copy.
  rewrite (bind_returns _ _ _ _ _ (read_run _ _ _ H)), (array_slice_run _ _ _ _ _ H).
  now rewrite Nat.sub_0_r, skipn_O, firstn_all.
Qed.

Lemma array_sort_run (compareFn : Meal -> Meal -> Z) ref arr w :
  heap w !! ref = Some arr ->
  array_sort compareFn ref w
  = (Return ref, set_heap (<[ref := sortBy compareFn arr]> (heap w)) w).
Proof.
  intros H. unfold array_sort.
  now rewrite (bind_returns _ _ _ _ _ (read_run _ _ _ H)).
Qed.

Lemma mapIndexed_log arr (idx : nat) w :
  mapIndexed (fun m i => log (entryLine m i);; mret m) arr idx w
  = (Return arr, emit (List.map Log (entryLinesFrom idx arr)) w).
Proof.
  revert idx w. induction arr as [|m arr IH]; intros idx w.
  - simpl. now rewrite emit_nil.
  - cbn [mapIndexed entryLinesFrom List.map].
    rewrite bind_run, bind_run, log_run. cbv iota beta.
    rewrite ret_run, bind_run, IH. cbv iota beta.
    now rewrite ret_run, emit_emit.
Qed.

(** In place sorting is visible through every reference to the array. *)
Lemma array_sort_mutates (compareFn : Meal -> Meal -> Z) ref arr w :
  heap w !! ref = Some arr ->
  heap (snd (array_sort compareFn ref w)) !! ref = Some (sortBy compareFn arr).
Proof.
  intros H. rewrite (array_sort_run _ _ _ _ H). simpl. apply lookup_insert_eq.
Qed.

End Store.

(** ** Sorting *)

Section CodeUnitOrder.

Lemma compare_not_Gt_trans (a b c : string) :
  String.compare a b <> Gt -> String.compare b c <> Gt -> String.compare a c <> Gt.
Proof.
  revert b c. induction a as [|x a IH]; intros [|y b] [|z c]; simpl; try congruence.
  unfold Ascii.compare.
  destruct (N.compare_spec (N_of_ascii x) (N_of_ascii y)) as [Exy|Lxy|Gxy];
    destruct (N.compare_spec (N_of_ascii y) (N_of_ascii z)) as [Eyz|Lyz|Gyz];
    destruct (N.compare_spec (N_of_ascii x) (N_of_ascii z)) as [Exz|Lxz|Gxz];
    try congruence; try lia.
  apply IH.
Qed.

Lemma codeUnitCompare_total (a b : string) :
  (0 < codeUnitCompare a b)%Z -> (codeUnitCompare b a <= 0)%Z.
Proof.
  unfold codeUnitCompare. rewrite (String.compare_antisym a b).
  destruct (String.compare b a); simpl; lia.
Qed.

Lemma codeUnitCompare_trans (a b c : string) :
  (codeUnitCompare a b <= 0)%Z -> (codeUnitCompare b c <= 0)%Z ->
  (codeUnitCompare a c <= 0)%Z.
Proof.
  unfold codeUnitCompare. intros Hab Hbc.
  pose proof (compare_not_Gt_trans a b c) as H.
  destruct (String.compare a b); destruct (String.compare b c);
    destruct (String.compare a c); try lia; exfalso; apply H; congruence.
Qed.

End CodeUnitOrder.

Section Sorting.

Variable compareFn : Meal -> Meal -> Z.
Local Abbreviation le := (fun a b => (compareFn a b <= 0)%Z).

Lemma insertSorted_perm (x : Meal) (l : list Meal) :
  Permutation (insertSorted compareFn x l) (x :: l).
Proof.
  induction l as [|y l IH]; simpl; [reflexivity|].
  destruct (compareFn x y <=? 0)%Z; [reflexivity|].
  rewrite IH. apply perm_swap.
Qed.

Lemma sortBy_perm (l : list Meal) : Permutation (sortBy compareFn l) l.
Proof.
  induction l as [|x l IH]; simpl; [reflexivity|].
  rewrite insertSorted_perm. now constructor.
Qed.

Lemma sortBy_length (l : list Meal) : length (sortBy compareFn l) = length l.
Proof. apply Permutation_length, sortBy_perm. Qed.

(** The comparator is a consistent ordering. *)
Hypothesis compare_total : forall a b, (0 < compareFn a b)%Z -> (compareFn b a <= 0)%Z.
Hypothesis compare_trans :
  forall a b c, (compareFn a b <= 0)%Z -> (compareFn b c <= 0)%Z -> (compareFn a c <= 0)%Z.

Lemma insertSorted_sorted (x : Meal) (l : list Meal) :
  StronglySorted le l -> StronglySorted le (insertSorted compareFn x l).
Proof.
  induction l as [|y l IH]; intros Hs; simpl.
  - repeat constructor.
  - inversion Hs as [|? ? Hl Hy]; subst.
    destruct (Z.leb_spec (compareFn x y) 0) as [Hxy|Hxy].
    + constructor; [exact Hs|]. constructor; [exact Hxy|].
      eapply List.Forall_impl; [|exact Hy]. intros z Hz. now apply (compare_trans x y z).
    + constructor; [now apply IH|].
      apply (Permutation_Forall (Permutation_sym (insertSorted_perm x l))).
      constructor; [now apply compare_total | exact Hy].
Qed.

Lemma sortBy_sorted (l : list Meal) : StronglySorted le (sortBy compareFn l).
Proof.
  induction l as [|x l IH]; simpl; [constructor | now apply insertSorted_sorted].
Qed.

End Sorting.

(** ** [displayMeals] *)

Section Display.

Variable localeCompare : string -> string -> Z.
Implicit Types (w : world) (ref meals : nat) (arr : list Meal).

Lemma frame_insert (h h0 : gmap nat (list Meal)) (r : nat) arr :
  (forall ref, is_Some (h0 !! ref) -> h !! ref = h0 !! ref) ->
  h0 !! r = None ->
  forall ref, is_Some (h0 !! ref) -> <[r := arr]> h !! ref = h0 !! ref.
Proof.
  intros Hframe Hr ref Href. rewrite lookup_insert_ne; [now apply Hframe|].
  intros ->. rewrite Hr in Href. now destruct Href.
Qed.

Lemma frame_alloc (h h0 : gmap nat (list Meal)) arr :
  (forall ref, is_Some (h0 !! ref) -> h !! ref = h0 !! ref) ->
  forall ref, is_Some (h0 !! ref) -> <[fresh (dom h) := arr]> h !! ref = h0 !! ref.
Proof.
  intros Hframe ref Href. rewrite lookup_insert_ne; [now apply Hframe|].
  intros E. apply (fresh_not_allocated h ref); [|now symmetry].
  now rewrite Hframe.
Qed.

Lemma displayLines_cons arr :
  arr <> [] ->
  displayLines localeCompare arr
  = Log resultsHeader
    :: List.map Log
         (entryLinesFrom 0 (firstn MAX_RESULTS_TO_SHOW (sortBy (byName localeCompare) arr)))
    ++ [Log (lastLine (length arr))].
Proof. destruct arr; [congruence | reflexivity]. Qed.

(** One call of [displayMeals]: it returns, it prints [displayLines],
    and every array that was in the store is as it was; the copies it
    made are new arrays. *)
Lemma displayMeals_run meals arr w :
  heap w !! meals = Some arr ->
  exists h',
    displayMeals localeCompare meals w
    = (Return tt,
       mkWorld h' (console w ++ displayLines localeCompare arr) (stdin w) (readers w))
    /\ (forall ref, is_Some (heap w !! ref) -> h' !! ref = heap w !! ref).
Proof.
  intros Hmeals. unfold displayMeals.
  rewrite bind_run, log_run. cbv iota beta.
  set (w1 := emit [Log (nl +:+ "=== Recipe Finder Results ===")] w).
  assert (H1 : heap w1 !! meals = Some arr) by exact Hmeals.
  rewrite (bind_returns _ _ _ _ _ (read_run meals arr w1 H1)).
  destruct (Nat.eqb_spec (length arr) 0) as [Hlen|Hlen].
  - destruct arr; [|discriminate]. exists (heap w). split; [|reflexivity].
    rewrite log_run. subst w1. rewrite emit_emit. reflexivity.
  - assert (Hne : arr <> []) by (intros ->; now apply Hlen).
    rewrite bind_run, (array_copy_run meals arr w1 H1).
    unfold alloc at 1. cbv iota beta.
    set (r1 := fresh (dom (heap w1))).
    set (w2 := set_heap _ w1).
    assert (H2 : heap w2 !! r1 = Some arr) by apply lookup_insert_eq.
    assert (F2 : forall ref, is_Some (heap w !! ref) -> heap w2 !! ref = heap w !! ref)
      by (apply frame_alloc; reflexivity).
    rewrite bind_run, (array_sort_run _ r1 arr w2 H2). cbv iota beta.
    set (sorted := sortBy (byName localeCompare) arr).
    set (w3 := set_heap _ w2).
    assert (H3 : heap w3 !! r1 = Some sorted) by apply lookup_insert_eq.
    assert (F3 : forall ref, is_Some (heap w !! ref) -> heap w3 !! ref = heap w !! ref).
    { apply frame_insert; [exact F2|]. apply not_elem_of_dom. apply is_fresh. }
    rewrite bind_run, (array_slice_run r1 0 MAX_RESULTS_TO_SHOW sorted w3 H3).
    rewrite Nat.sub_0_r, skipn_O.
    unfold alloc at 1. cbv iota beta.
    set (shown := firstn MAX_RESULTS_TO_SHOW sorted).
    set (r2 := fresh (dom (heap w3))).
    set (w4 := set_heap _ w3).
    assert (H4 : heap w4 !! r2 = Some shown) by apply lookup_insert_eq.
    assert (F4 : forall ref, is_Some (heap w !! ref) -> heap w4 !! ref = heap w !! ref)
      by (apply frame_alloc; exact F3).
    rewrite bind_run. unfold array_map.
    rewrite (bind_returns _ _ _ _ _ (read_run r2 shown w4 H4)).
    rewrite bind_run, mapIndexed_log. cbv iota beta.
    unfold alloc at 1. cbv iota beta.
    set (w5 := set_heap _ (emit _ w4)).
    assert (F5 : forall ref, is_Some (heap w !! ref) -> heap w5 !! ref = heap w !! ref)
      by (apply frame_alloc; exact F4).
    assert (H5 : heap w5 !! meals = Some arr)
      by (rewrite F5; [exact Hmeals | now exists arr]).
    rewrite bind_run, (bind_returns _ _ _ _ _ (read_run meals arr w5 H5)), ret_run.
    cbv iota beta.
    exists (heap w5). split; [|exact F5].
    rewrite displayLines_cons by exact Hne.
    fold sorted. fold shown. unfold lastLine.
    destruct (MAX_RESULTS_TO_SHOW <? length arr)%nat; rewrite log_run.
    all: f_equal; unfold emit, set_console; cbn [heap console stdin readers set_heap].
    all: f_equal; subst w5 w4 w3 w2 w1;
      cbn [heap console stdin readers set_heap emit set_console].
    all: rewrite <- !app_assoc; reflexivity.
Qed.

Lemma entryLinesFrom_length (idx : nat) (shown : list Meal) :
  length (entryLinesFrom idx shown) = length shown.
Proof.
  revert idx. induction shown as [|m shown IH]; intros idx; simpl; [reflexivity|].
  now rewrite IH.
Qed.

End Display.

Lemma entryLinesFrom_imap (idx : nat) (shown : list Meal) :
  entryLinesFrom idx shown
  = imap (fun i m => string_of_nat (idx + i + 1) +:+ ". " +:+ strMeal m
                     +:+ " (ID: " +:+ idMeal m +:+ ")") shown.
Proof.
  revert idx. induction shown as [|m shown IH]; intros idx; [reflexivity|].
  cbn [entryLinesFrom imap]. f_equal.
  - unfold entryLine. replace (idx + 0 + 1) with (idx + 1) by lia. reflexivity.
  - rewrite IH. apply imap_ext. intros i x _. cbn [compose].
    replace (S idx + i + 1) with (idx + S i + 1) by lia. reflexivity.
Qed.

(** C8.  [displayMeals] prints the recipes in ascending order of their
    names and at most ten of them, each on a line of its own that carries
    the number of the entry, counted from 1, the name and the identifier
    of the recipe; when there are more than ten, a last line gives the
    number of those left out, so that for fifteen recipes it prints ten
    entries and "...and 5 more"; when there is none, it prints the message
    that nothing matched in place of a listing.  The comparison of the
    names is assumed to be a consistent ordering, as that of
    [localeCompare] is. *)
Theorem displayMeals_sorted_top_ten
    (localeCompare : string -> string -> Z)
    (compare_total : forall a b : string,
        (0 < localeCompare a b)%Z -> (localeCompare b a <= 0)%Z)
    (compare_trans : forall a b c : string,
        (localeCompare a b <= 0)%Z -> (localeCompare b c <= 0)%Z ->
        (localeCompare a c <= 0)%Z)
    (meals : nat) (arr : list Meal) (w : world) :
  heap w !! meals = Some arr ->
  exists w' sorted,
    displayMeals localeCompare meals w = (Return tt, w')
    /\ Permutation sorted arr
    /\ StronglySorted (nameLe localeCompare) sorted
    /\ length (firstn 10 sorted) = Nat.min 10 (length arr)
    /\ (arr = [] ->
        console w'
        = console w ++ [Log (nl +:+ "=== Recipe Finder Results ===");
                          Log ("No matching recipes found for those ingredients." +:+ nl)])
    /\ (arr <> [] ->
        console w'
        = console w ++ [Log (nl +:+ "=== Recipe Finder Results ===")]
          ++ List.map Log
               (imap (fun i m => string_of_nat (i + 1) +:+ ". " +:+ strMeal m +:+ " (ID: " +:+ idMeal m +:+ ")")
                  (firstn 10 sorted))
          ++ [Log (if (10 <? length arr)%nat
                   then "...and " +:+ string_of_nat (length arr - 10) +:+ " more" +:+ nl
                   else "")])
    /\ (length arr = 15 ->
        length (imap (fun i m => string_of_nat (i + 1) +:+ ". " +:+ strMeal m +:+ " (ID: " +:+ idMeal m +:+ ")")
                  (firstn 10 sorted)) = 10
        /\ console w'
           = console w ++ [Log (nl +:+ "=== Recipe Finder Results ===")]
             ++ List.map Log
                  (imap (fun i m => string_of_nat (i + 1) +:+ ". " +:+ strMeal m +:+ " (ID: " +:+ idMeal m +:+ ")")
                     (firstn 10 sorted))
             ++ [Log ("...and 5 more" +:+ nl)]).
Proof.
  intros Hmeals.
  destruct (displayMeals_run localeCompare meals arr w Hmeals) as [h' [Hrun _]].
  eexists. exists (sortBy (byName localeCompare) arr).
  split; [exact Hrun|]. cbn [console].
  split; [apply sortBy_perm|].
  split.
  { apply (sortBy_sorted (byName localeCompare)); unfold byName.
    - intros a b. apply compare_total.
    - intros a b c. apply compare_trans. }
  split; [rewrite length_firstn, sortBy_length; reflexivity|].
  split; [intros ->; reflexivity|].
  assert (Hlines : forall shown,
             imap (fun i m => string_of_nat (i + 1) +:+ ". " +:+ strMeal m
                              +:+ " (ID: " +:+ idMeal m +:+ ")") shown
             = entryLinesFrom 0 shown).
  { intros shown. rewrite entryLinesFrom_imap. reflexivity. }
  rewrite Hlines.
  split.
  - intros Hne. now rewrite displayLines_cons by exact Hne.
  - intros H15. split.
    + rewrite entryLinesFrom_length, length_firstn, sortBy_length, H15. reflexivity.
    + assert (Hne : arr <> []) by (intros ->; discriminate).
      rewrite displayLines_cons by exact Hne. unfold lastLine, moreLine. rewrite H15.
      reflexivity.
Qed.

Lemma displayMeals_sorted_top_ten_witness :
  heap (mkWorld {[ 0 := fifteenMeals ]} [] [] 0) !! 0 = Some fifteenMeals
  /\ exists w' sorted,
       displayMeals codeUnitCompare 0 (mkWorld {[ 0 := fifteenMeals ]} [] [] 0) = (Return tt, w')
       /\ Permutation sorted fifteenMeals
       /\ StronglySorted (nameLe codeUnitCompare) sorted
       /\ length (firstn 10 sorted) = Nat.min 10 (length fifteenMeals)
       /\ (fifteenMeals = [] ->
           console w'
           = [] ++ [Log (nl +:+ "=== Recipe Finder Results ===");
                             Log ("No matching recipes found for those ingredients." +:+ nl)])
       /\ (fifteenMeals <> [] ->
           console w'
           = [] ++ [Log (nl +:+ "=== Recipe Finder Results ===")]
             ++ List.map Log
                  (imap (fun i m => string_of_nat (i + 1) +:+ ". " +:+ strMeal m +:+ " (ID: " +:+ idMeal m +:+ ")")
                     (firstn 10 sorted))
             ++ [Log (if (10 <? length fifteenMeals)%nat
                      then "...and " +:+ string_of_nat (length fifteenMeals - 10) +:+ " more" +:+ nl
                      else "")])
       /\ (length fifteenMeals = 15 ->
           length (imap (fun i m => string_of_nat (i + 1) +:+ ". " +:+ strMeal m +:+ " (ID: " +:+ idMeal m +:+ ")")
                     (firstn 10 sorted)) = 10
           /\ console w'
              = [] ++ [Log (nl +:+ "=== Recipe Finder Results ===")]
                ++ List.map Log
                     (imap (fun i m => string_of_nat (i + 1) +:+ ". " +:+ strMeal m +:+ " (ID: " +:+ idMeal m +:+ ")")
                        (firstn 10 sorted))
                ++ [Log ("...and 5 more" +:+ nl)]).
Proof.
  split; [reflexivity|].
  apply (displayMeals_sorted_top_ten codeUnitCompare
           codeUnitCompare_total codeUnitCompare_trans
           0 fifteenMeals (mkWorld {[ 0 := fifteenMeals ]} [] [] 0)).
  reflexivity.
Defined.

(** What the terminal shows for the fifteen recipes. *)
Example displayMeals_fifteen :
  console (snd (displayMeals codeUnitCompare 0 (mkWorld {[ 0 := fifteenMeals ]} [] [] 0)))
  = [ Log resultsHeader;
      Log "1. Recipe 1 (ID: 1)"; Log "2. Recipe 10 (ID: 10)"; Log "3. Recipe 11 (ID: 11)";
      Log "4. Recipe 12 (ID: 12)"; Log "5. Recipe 13 (ID: 13)"; Log "6. Recipe 14 (ID: 14)";
      Log "7. Recipe 15 (ID: 15)"; Log "8. Recipe 2 (ID: 2)"; Log "9. Recipe 3 (ID: 3)";
      Log "10. Recipe 4 (ID: 4)";
      Log ("...and 5 more" +:+ nl) ].
Proof. vm_compute. reflexivity. Qed.

(** C10.  [displayMeals] leaves the array it is given as it is, the
    elements and their order: it sorts and cuts a copy.  No other array
    of the store changes either. *)
Theorem displayMeals_leaves_input
    (localeCompare : string -> string -> Z) (meals : nat) (arr : list Meal) (w : world) :
  heap w !! meals = Some arr ->
  exists w',
    displayMeals localeCompare meals w = (Return tt, w')
    /\ heap w' !! meals = Some arr
    /\ (forall ref, is_Some (heap w !! ref) -> heap w' !! ref = heap w !! ref).
Proof.
  intros Hmeals.
  destruct (displayMeals_run localeCompare meals arr w Hmeals) as [h' [Hrun Hframe]].
  eexists. split; [exact Hrun|]. cbn [heap]. split; [|exact Hframe].
  rewrite Hframe; [exact Hmeals | now exists arr].
Qed.

Lemma displayMeals_leaves_input_witness :
  heap (mkWorld {[ 4 := [mkMeal "2" "Zucchini Bake" ""; mkMeal "1" "Apple Pie" ""] ]} [] [] 0)
    !! 4 = Some [mkMeal "2" "Zucchini Bake" ""; mkMeal "1" "Apple Pie" ""]
  /\ exists w',
       displayMeals codeUnitCompare 4
         (mkWorld {[ 4 := [mkMeal "2" "Zucchini Bake" ""; mkMeal "1" "Apple Pie" ""] ]} [] [] 0)
       = (Return tt, w')
       /\ heap w' !! 4 = Some [mkMeal "2" "Zucchini Bake" ""; mkMeal "1" "Apple Pie" ""]
       /\ (forall ref,
             is_Some (heap (mkWorld
                        {[ 4 := [mkMeal "2" "Zucchini Bake" ""; mkMeal "1" "Apple Pie" ""] ]}
                        [] [] 0) !! ref) ->
             heap w' !! ref
             = heap (mkWorld
                       {[ 4 := [mkMeal "2" "Zucchini Bake" ""; mkMeal "1" "Apple Pie" ""] ]}
                       [] [] 0) !! ref).
Proof.
  split; [reflexivity|].
  apply (displayMeals_leaves_input codeUnitCompare 4
           [mkMeal "2" "Zucchini Bake" ""; mkMeal "1" "Apple Pie" ""]).
  reflexivity.
Defined.

(** Sorting the array itself, without the copy, would have changed it. *)
Example array_sort_changes_the_array :
  heap (snd (array_sort (byName codeUnitCompare) 4
               (mkWorld {[ 4 := [mkMeal "2" "Zucchini Bake" ""; mkMeal "1" "Apple Pie" ""] ]}
                  [] [] 0))) !! 4
  = Some [mkMeal "1" "Apple Pie" ""; mkMeal "2" "Zucchini Bake" ""].
Proof. vm_compute. reflexivity. Qed.

(** ** [main] *)

Section Main.

Variable localeCompare : string -> string -> Z.
Variable request : string -> response.
Implicit Types (w : world) (e : error) (raw : string).

Lemma ask_run (question : string) w (answer : string) (rest : list string) :
  stdin w = answer :: rest ->
  ask question w = (Return answer, set_stdin rest (emit [Question question] w)).
Proof. intros H. unfold ask. now rewrite H. Qed.

Lemma fetchAll_fails (ingredients : list string) (mealLists : list (list Meal)) w e :
  snd (lookupAll request ingredients) = Some e ->
  fetchAll request ingredients mealLists w
  = (Throw e, emit (fst (lookupAll request ingredients)) w).
Proof.
  revert mealLists w. induction ingredients as [|ing rest IH]; intros mealLists w;
    [discriminate|].
  cbn [lookupAll fetchAll]. unfold fetchMealsByIngredient.
  destruct (request ing) as [[meals|]|cause]; cbn [fst snd answered].
  - intros H. rewrite bind_run, ret_run. cbv iota beta.
    rewrite bind_run, log_run. cbv iota beta.
    rewrite (IH _ _ H), emit_emit. reflexivity.
  - intros H. rewrite bind_run, ret_run. cbv iota beta.
    rewrite bind_run, log_run. cbv iota beta.
    rewrite (IH _ _ H), emit_emit. reflexivity.
  - intros [= <-]. rewrite bind_run. unfold throw. now rewrite emit_nil.
Qed.

Lemma cycle_fails (restart : M unit) w raw (rest : list string) e :
  stdin w = raw :: rest ->
  cycleFailure request raw = Some e ->
  cycle localeCompare request restart w
  = (Throw e, set_stdin rest (emit (banner ++ cycleProgress request raw) w)).
Proof.
  intros Hin Hfail. unfold cycle.
  rewrite bind_run, log_run. cbv iota beta.
  rewrite bind_run, log_run. cbv iota beta.
  rewrite bind_run, log_run. cbv iota beta.
  rewrite !emit_emit. cbn [app].
  erewrite bind_returns; [|apply ask_run; exact Hin].
  rewrite emit_emit. cbn [app]. fold banner.
  unfold cycleFailure, cycleProgress in *. unfold validate.
  destruct (validateIngredients (parseIngredients raw)) as [e0|].
  - injection Hfail as ->. rewrite bind_run. unfold throw.
    now rewrite app_nil_r.
  - rewrite bind_run, ret_run. cbv iota beta.
    rewrite bind_run, log_run. cbv iota beta.
    rewrite bind_run, (fetchAll_fails _ _ _ _ Hfail).
    f_equal. unfold emit, set_console, set_stdin. cbn [heap console stdin readers].
    f_equal. rewrite <- !app_assoc. reflexivity.
Qed.

Lemma report_run e w : report e w = (Return tt, emit (reportLines e) w).
Proof.
  unfold report.
  rewrite bind_run, log_run. cbv iota beta.
  rewrite bind_run, log_run. cbv iota beta.
  rewrite log_run, !emit_emit. reflexivity.
Qed.

(** Whatever the [try] block does, the statement does not throw: the
    handler and the cleanup only print and close. *)
Lemma try_report_close_no_throw (body : M unit) w e :
  fst (try_catch_finally body report close w) <> Throw e.
Proof.
  unfold try_catch_finally.
  destruct (body w) as [[[]|e0| |f] w1]; [| rewrite report_run | |]; cbn; discriminate.
Qed.

Lemma main_no_throw (fuel : nat) w e : fst (main localeCompare request fuel w) <> Throw e.
Proof.
  destruct fuel as [|fuel]; cbn [main]; [cbn; discriminate|].
  rewrite bind_run. unfold createInput. cbv iota beta.
  apply try_report_close_no_throw.
Qed.

Lemma main_fails (fuel : nat) w raw (rest : list string) e :
  stdin w = raw :: rest ->
  cycleFailure request raw = Some e ->
  main localeCompare request (S fuel) w
  = (Return tt,
     mkWorld (heap w)
       (console w ++ banner ++ cycleProgress request raw ++ reportLines e)
       rest (readers w)).
Proof.
  intros Hin Hfail. cbn [main].
  rewrite bind_run. unfold createInput. cbv iota beta.
  unfold try_catch_finally.
  rewrite (cycle_fails _ (set_readers (S (readers w)) w) raw rest e Hin Hfail), report_run.
  unfold close, emit, set_console, set_stdin, set_readers.
  cbn [heap console stdin readers Nat.pred].
  rewrite <- !app_assoc. reflexivity.
Qed.

Lemma lookupAll_logs (ingredients : list string) :
  Forall (fun ev => exists meals ing, ev = foundLine meals ing)
    (fst (lookupAll request ingredients)).
Proof.
  induction ingredients as [|ing rest IH]; cbn [lookupAll]; [constructor|].
  destruct (request ing) as [r|cause]; cbn [fst]; [|constructor].
  constructor; [now exists (answered r), ing | exact IH].
Qed.

Lemma cycleProgress_quiet raw :
  List.filter isPrompt (cycleProgress request raw) = []
  /\ ~ In (Log resultsHeader) (cycleProgress request raw).
Proof.
  unfold cycleProgress.
  destruct (validateIngredients (parseIngredients raw)); [split; [reflexivity | intros []]|].
  pose proof (lookupAll_logs (parseIngredients raw)) as Hlogs.
  induction Hlogs as [|ev evs [meals [ing ->]] _ [IH1 IH2]].
  - split; [reflexivity|]. intros [H|[]]. discriminate H.
  - split.
    + cbn in *. exact IH1.
    + intros [H|[H|H]]; [discriminate H | discriminate H |].
      apply IH2. now right.
Qed.
End Main.


(** C3, as the code has it.  Every failure of a cycle, of the validation
    or of a request, is caught by [main], which prints a heading, the
    message of the failure and a hint, prints no results for the cycle and
    leaves the store as it was, closes its reader and returns.  It does
    not ask for ingredients again: the lines the user typed after the
    failing input stay unread.  No call of [main] ends by throwing. *)
Theorem main_failure_ends_session
    (localeCompare : string -> string -> Z) (request : string -> response)
    (fuel : nat) (w : world) (raw : string) (rest : list string) (e : error) :
  stdin w = raw :: rest ->
  cycleFailure request raw = Some e ->
  main localeCompare request (S fuel) w
  = (Return tt,
     mkWorld (heap w)
       (console w ++ banner ++ cycleProgress request raw ++ reportLines e)
       rest (readers w))
  /\ prompts (banner ++ cycleProgress request raw ++ reportLines e) = 1
  /\ ~ In (Log resultsHeader) (banner ++ cycleProgress request raw)
  /\ In (Log (message e)) (reportLines e)
  /\ (forall fuel' w' e', fst (main localeCompare request fuel' w') <> Throw e').
Proof.
  intros Hin Hfail.
  destruct (cycleProgress_quiet request raw) as [Hquiet Hnone].
  split; [now apply main_fails|].
  split.
  { unfold prompts. rewrite !List.filter_app, Hquiet. reflexivity. }
  split.
  { rewrite in_app_iff. intros [H|H]; [|now apply Hnone].
    cbn in H. intuition discriminate. }
  split; [cbn; tauto|].
  intros fuel' w' e'. apply main_no_throw.
Qed.

Lemma main_failure_ends_session_witness :
  stdin (mkWorld ∅ [] ["rice, saffron, chicken"; "rice"] 0)
  = "rice, saffron, chicken" :: ["rice"]
  /\ cycleFailure sampleRequest "rice, saffron, chicken" = Some (LookupFailure "Network Error")
  /\ main codeUnitCompare sampleRequest 1 (mkWorld ∅ [] ["rice, saffron, chicken"; "rice"] 0)
     = (Return tt,
        mkWorld ∅
          ([] ++ banner ++ cycleProgress sampleRequest "rice, saffron, chicken"
              ++ reportLines (LookupFailure "Network Error"))
          ["rice"] 0)
  /\ prompts (banner ++ cycleProgress sampleRequest "rice, saffron, chicken"
                ++ reportLines (LookupFailure "Network Error")) = 1
  /\ ~ In (Log resultsHeader)
         (banner ++ cycleProgress sampleRequest "rice, saffron, chicken")
  /\ In (Log (message (LookupFailure "Network Error")))
       (reportLines (LookupFailure "Network Error"))
  /\ (forall fuel' w' e', fst (main codeUnitCompare sampleRequest fuel' w') <> Throw e').
Proof.
  split; [reflexivity|]. split; [reflexivity|].
  apply (main_failure_ends_session codeUnitCompare sampleRequest 0
           (mkWorld ∅ [] ["rice, saffron, chicken"; "rice"] 0)
           "rice, saffron, chicken" ["rice"] (LookupFailure "Network Error"));
    reflexivity.
Defined.

(** C3 as the specification states it fails: after the empty input the
    program has returned, it asked for ingredients once, and the next
    line of the user is still unread. *)
Lemma main_failure_no_new_prompt :
  cycleFailure sampleRequest "" = Some EmptyIngredientList
  /\ fst (main codeUnitCompare sampleRequest 5 (mkWorld ∅ [] [""; "chicken, rice"] 0))
     = Return tt
  /\ stdin (snd (main codeUnitCompare sampleRequest 5 (mkWorld ∅ [] [""; "chicken, rice"] 0)))
     = ["chicken, rice"]
  /\ prompts
       (console (snd (main codeUnitCompare sampleRequest 5
                        (mkWorld ∅ [] [""; "chicken, rice"] 0))))
     = 1
  /\ console (snd (main codeUnitCompare sampleRequest 5 (mkWorld ∅ [] [""; "chicken, rice"] 0)))
     = banner ++ reportLines EmptyIngredientList.
Proof. vm_compute. repeat split. Qed.

(** A failure in a later cycle ends the calls of [main] around it as
    well: the session is over, with the last line unread. *)
Example main_failure_in_second_cycle :
  fst (main codeUnitCompare sampleRequest 5
         (mkWorld ∅ [] ["chicken, rice"; "Y"; "a, rice"; "rice"] 0))
  = Return tt
  /\ stdin (snd (main codeUnitCompare sampleRequest 5
                   (mkWorld ∅ [] ["chicken, rice"; "Y"; "a, rice"; "rice"] 0)))
     = ["rice"]
  /\ prompts (console (snd (main codeUnitCompare sampleRequest 5
                              (mkWorld ∅ [] ["chicken, rice"; "Y"; "a, rice"; "rice"] 0))))
     = 2.
Proof. vm_compute. repeat split. Qed.

(** A cycle without failure, declined afterwards, for comparison. *)
Example main_declined :
  fst (main codeUnitCompare sampleRequest 5
         (mkWorld ∅ [] ["chicken, rice"; "n"; "rice"] 0))
  = Return tt
  /\ stdin (snd (main codeUnitCompare sampleRequest 5
                   (mkWorld ∅ [] ["chicken, rice"; "n"; "rice"] 0)))
     = ["rice"]
  /\ List.filter (fun ev => match ev with Log _ => false | Question _ => true end)
       (console (snd (main codeUnitCompare sampleRequest 5
                        (mkWorld ∅ [] ["chicken, rice"; "n"; "rice"] 0))))
     = [Question "Enter ingredients: "; Question "Search again? (y/n): "].
Proof. vm_compute. repeat split. Qed.

(** * Further properties *)

(** ** More on the intersection *)

Section IntersectionMore.

Implicit Types (lists : list (list Meal)) (meals listA listB : list Meal).


Lemma filter_none {A : Type} (p : A -> bool) (l : list A) :
  (forall x, In x l -> p x = false) -> List.filter p l = [].
Proof.
  induction l as [|x l IH]; intros H; [reflexivity|].
  simpl. rewrite (H x (or_introl eq_refl)). apply IH. intros y Hy. apply H. now right.
Qed.

Lemma filter_all {A : Type} (p : A -> bool) (l : list A) :
  (forall x, In x l -> p x = true) -> List.filter p l = l.
Proof.
  intros H. apply List.forallb_filter_id, forallb_forall. exact H.
Qed.

Lemma hasId_own listA (r : Meal) : In r listA -> hasId (idMeal r) listA = true.
Proof. intros H. apply hasId_In. unfold ids. apply in_map_iff. now exists r. Qed.


(** X2.  A list intersected with itself is unchanged, repeated records
    included; with an empty list on either side the result is empty. *)
Theorem intersectTwoLists_identities (listA : list Meal) :
  intersectTwoLists listA listA = listA
  /\ intersectTwoLists listA [] = []
  /\ intersectTwoLists [] listA = [].
Proof.
  split; [|split; [|reflexivity]].
  - rewrite intersectTwoLists_hasId. apply filter_all. intros r. apply hasId_own.
  - rewrite intersectTwoLists_hasId. now apply filter_none.
Qed.

(** X3.  Called on two lists or more with an index past the last list,
    [intersectAllRecursively] never returns: no base case is met and the
    index only grows, whatever depth of calls is allowed. *)
Theorem intersectAllRecursively_past_the_end lists (index : nat) :
  2 <= length lists ->
  length lists <= index ->
  forall fuel, intersectAllRecursively fuel lists index = None.
Proof.
  intros Hlen Hidx fuel. revert index Hidx.
  induction fuel as [|fuel IH]; intros index Hidx; [reflexivity|].
  cbn [intersectAllRecursively].
  destruct (Nat.eqb_spec (length lists) 0) as [E|_]; [lia|].
  destruct (Nat.eqb_spec (length lists) 1) as [E|_]; [lia|].
  destruct (Nat.eqb_spec index (length lists - 1)) as [E|_]; [lia|].
  rewrite IH by lia. reflexivity.
Qed.

Lemma intersectAllRecursively_past_the_end_witness :
  2 <= length [[mkMeal "1" "Soup" ""]; [mkMeal "1" "Soup" ""]]
  /\ length [[mkMeal "1" "Soup" ""]; [mkMeal "1" "Soup" ""]] <= 2
  /\ forall fuel,
       intersectAllRecursively fuel [[mkMeal "1" "Soup" ""]; [mkMeal "1" "Soup" ""]] 2 = None.
Proof.
  split; [simpl; lia|]. split; [simpl; lia|].
  apply (intersectAllRecursively_past_the_end
           [[mkMeal "1" "Soup" ""]; [mkMeal "1" "Soup" ""]] 2); simpl; lia.
Defined.

(** X4.  Called with an index inside the array, and allowed one level of
    calls for each list from the index on, [intersectAllRecursively]
    returns the intersection of the lists from that index on, the first of
    them filtered by the later ones; the lists before the index play no
    part. *)
Theorem intersectAllRecursively_suffix (before lists : list (list Meal)) (fuel : nat) :
  lists <> [] ->
  2 <= length (before ++ lists) ->
  length lists <= fuel ->
  intersectAllRecursively fuel (before ++ lists) (length before)
  = Some (intersectRightNested lists).
Proof.
  intros Hne Hlen Hfuel.
  assert (Hpos : 0 < length lists) by (destruct lists; [congruence | simpl; lia]).
  rewrite (intersectAllRecursively_from (before ++ lists) (length lists - 1) Hlen
             (length before) fuel).
  - now rewrite skipn_app, skipn_all, Nat.sub_diag.
  - rewrite length_app. lia.
  - lia.
Qed.

Lemma intersectAllRecursively_suffix_witness :
  [[mkMeal "2" "Pie" ""; mkMeal "3" "Stew" ""]; [mkMeal "3" "Stew" ""]] <> []
  /\ 2 <= length ([[mkMeal "1" "Soup" ""]]
                   ++ [[mkMeal "2" "Pie" ""; mkMeal "3" "Stew" ""]; [mkMeal "3" "Stew" ""]])
  /\ length [[mkMeal "2" "Pie" ""; mkMeal "3" "Stew" ""]; [mkMeal "3" "Stew" ""]] <= 2
  /\ intersectAllRecursively 2
       ([[mkMeal "1" "Soup" ""]]
        ++ [[mkMeal "2" "Pie" ""; mkMeal "3" "Stew" ""]; [mkMeal "3" "Stew" ""]])
       (length [[mkMeal "1" "Soup" ""]])
     = Some (intersectRightNested
               [[mkMeal "2" "Pie" ""; mkMeal "3" "Stew" ""]; [mkMeal "3" "Stew" ""]]).
Proof.
  split; [discriminate|]. split; [simpl; lia|]. split; [simpl; lia|].
  apply (intersectAllRecursively_suffix [[mkMeal "1" "Soup" ""]]
           [[mkMeal "2" "Pie" ""; mkMeal "3" "Stew" ""]; [mkMeal "3" "Stew" ""]] 2);
    [discriminate | simpl; lia | simpl; lia].
Defined.

Lemma intersectRightNested_cons (first : list Meal) lists :
  intersectRightNested (first :: lists)
  = match lists with
    | [] => first
    | _ :: _ => List.filter (fun meal => inAll (idMeal meal) lists) first
    end.
Proof.
  destruct lists as [|second rest]; [reflexivity|].
  now apply intersectRightNested_filter.
Qed.

Lemma intersectRightNested_idset lists (key : string) :
  key ∈ idset (intersectRightNested lists)
  <-> lists <> [] /\ forall meals, In meals lists -> key ∈ idset meals.
Proof.
  destruct lists as [|first [|second rest]].
  - simpl. rewrite elem_of_idset. simpl. tauto.
  - simpl. split.
    + intros H. split; [discriminate|]. intros meals [<-|[]]. exact H.
    + intros [_ H]. apply H. now left.
  - rewrite intersectRightNested_filter by discriminate.
    rewrite elem_of_idset. unfold ids. rewrite in_map_iff. split.
    + intros [m [<- Hm]]. apply filter_In in Hm. destruct Hm as [Hin Hall].
      split; [discriminate|]. intros meals [<-|Hrest].
      * apply elem_of_idset. unfold ids. apply in_map_iff. now exists m.
      * revert meals Hrest. now apply inAll_In.
    + intros [_ H].
      assert (Hfirst : key ∈ idset first) by (apply H; now left).
      apply elem_of_idset in Hfirst. unfold ids in Hfirst.
      apply in_map_iff in Hfirst. destruct Hfirst as [m [<- Hin]].
      exists m. split; [reflexivity|]. apply filter_In. split; [exact Hin|].
      apply inAll_In. intros meals Hmeals. apply H. now right.
Qed.

Lemma idset_empty_nil meals : idset meals = ∅ -> meals = [].
Proof.
  destruct meals as [|m meals]; [reflexivity|]. intros H. exfalso.
  assert (Hm : idMeal m ∈ idset (m :: meals)) by (apply elem_of_idset; now left).
  rewrite H in Hm. now apply not_elem_of_empty in Hm.
Qed.

(** X5.  When one of the lists is empty, an ingredient without any
    recipe, the intersection is empty. *)
Theorem intersectAll_with_empty_list lists :
  In [] lists -> intersectAll lists = Some [].
Proof.
  intros Hin. rewrite intersectAll_returns. f_equal.
  apply idset_empty_nil, set_eq. intros key.
  rewrite intersectRightNested_idset. split.
  - intros [_ H]. apply (H [] Hin).
  - intros H. now apply not_elem_of_empty in H.
Qed.

Lemma intersectAll_with_empty_list_witness :
  In [] [[mkMeal "1" "Soup" ""; mkMeal "2" "Pie" ""]; []; [mkMeal "1" "Soup" ""]]
  /\ intersectAll [[mkMeal "1" "Soup" ""; mkMeal "2" "Pie" ""]; []; [mkMeal "1" "Soup" ""]]
     = Some [].
Proof.
  split; [simpl; tauto|].
  apply (intersectAll_with_empty_list
           [[mkMeal "1" "Soup" ""; mkMeal "2" "Pie" ""]; []; [mkMeal "1" "Soup" ""]]).
  simpl. tauto.
Defined.

Lemma inAll_app (key : string) (lists more : list (list Meal)) :
  inAll key (lists ++ more) = inAll key lists && inAll key more.
Proof. unfold inAll. apply forallb_app. Qed.

Lemma intersectRightNested_snoc (first extra : list Meal) (rest : list (list Meal)) :
  intersectRightNested (first :: rest ++ [extra])
  = intersectTwoLists (intersectRightNested (first :: rest)) extra.
Proof.
  rewrite (intersectRightNested_filter first (rest ++ [extra]))
    by (destruct rest; discriminate).
  rewrite intersectRightNested_cons, intersectTwoLists_hasId.
  destruct rest as [|second rest].
  - apply filter_ext. intros a. cbn. now rewrite andb_true_r.
  - rewrite filter_filter_andb. apply filter_ext. intros a.
    rewrite inAll_app. cbn. now rewrite andb_true_r.
Qed.

(** X6.  One more list at the end of a sequence that has a list already
    never adds a recipe: the longer sequence gives the two-list
    intersection of what the shorter one gives with the new list, records
    that are among those the shorter one gives, in the same order.  Only
    for the sequence without any list is it otherwise: that gives the empty
    list, and with one list added it gives this list. *)
Theorem intersectAll_one_more_list (lists : list (list Meal)) (extra : list Meal) :
  exists shorter longer,
    intersectAll lists = Some shorter
    /\ intersectAll (lists ++ [extra]) = Some longer
    /\ (lists = [] -> shorter = [] /\ longer = extra)
    /\ (lists <> [] ->
        longer = intersectTwoLists shorter extra /\ sublist longer shorter).
Proof.
  exists (intersectRightNested lists), (intersectRightNested (lists ++ [extra])).
  rewrite !intersectAll_returns.
  split; [reflexivity|]. split; [reflexivity|]. split.
  - intros ->. split; reflexivity.
  - intros Hne. destruct lists as [|first rest]; [congruence|].
    cbn [app]. rewrite intersectRightNested_snoc.
    split; [reflexivity | apply sublist_filter].
Qed.

(** X7.  Which recipes are found does not depend on the order of the
    lists: sequences that are permutations of one another give the same
    set of identifiers.  (The records and their order are those of the
    first list, so the lists themselves may differ.) *)
Theorem intersectAll_order_of_lists (lists lists' : list (list Meal)) :
  Permutation lists lists' ->
  exists result result',
    intersectAll lists = Some result
    /\ intersectAll lists' = Some result'
    /\ idset result = idset result'.
Proof.
  intros Hperm.
  exists (intersectRightNested lists), (intersectRightNested lists').
  rewrite !intersectAll_returns. repeat split.
  apply set_eq. intros key. rewrite !intersectRightNested_idset.
  split; intros [Hne H]; split.
  - intros ->. apply Permutation_sym, Permutation_nil in Hperm. contradiction.
  - intros meals Hm. apply H. now apply (Permutation_in _ (Permutation_sym Hperm)).
  - intros ->. apply Permutation_nil in Hperm. contradiction.
  - intros meals Hm. apply H. now apply (Permutation_in _ Hperm).
Qed.

Lemma intersectAll_order_of_lists_witness :
  Permutation
    [[mkMeal "1" "Soup" ""; mkMeal "2" "Pie" ""]; [mkMeal "2" "Tart" ""; mkMeal "1" "Broth" ""]]
    [[mkMeal "2" "Tart" ""; mkMeal "1" "Broth" ""]; [mkMeal "1" "Soup" ""; mkMeal "2" "Pie" ""]]
  /\ exists result result',
       intersectAll
         [[mkMeal "1" "Soup" ""; mkMeal "2" "Pie" ""];
          [mkMeal "2" "Tart" ""; mkMeal "1" "Broth" ""]] = Some result
       /\ intersectAll
            [[mkMeal "2" "Tart" ""; mkMeal "1" "Broth" ""];
             [mkMeal "1" "Soup" ""; mkMeal "2" "Pie" ""]] = Some result'
       /\ idset result = idset result'.
Proof.
  split; [apply perm_swap|].
  apply (intersectAll_order_of_lists
           [[mkMeal "1" "Soup" ""; mkMeal "2" "Pie" ""];
            [mkMeal "2" "Tart" ""; mkMeal "1" "Broth" ""]]
           [[mkMeal "2" "Tart" ""; mkMeal "1" "Broth" ""];
            [mkMeal "1" "Soup" ""; mkMeal "2" "Pie" ""]]).
  apply perm_swap.
Defined.

(** X8.  The same list twice at the front counts once: an ingredient
    entered twice, and answered alike, changes nothing. *)
Theorem intersectAll_repeated_list (first : list Meal) (rest : list (list Meal)) :
  intersectAll (first :: first :: rest) = intersectAll (first :: rest).
Proof.
  rewrite !intersectAll_returns. f_equal.
  rewrite (intersectRightNested_filter first (first :: rest)) by discriminate.
  rewrite intersectRightNested_cons.
  destruct rest as [|second rest].
  - apply filter_all. intros r Hr. cbn. now rewrite (hasId_own _ _ Hr).
  - apply filter_ext_in. intros r Hr.
    change (inAll (idMeal r) (first :: second :: rest))
      with (hasId (idMeal r) first && inAll (idMeal r) (second :: rest)).
    now rewrite (hasId_own _ _ Hr).
Qed.

End IntersectionMore.

(** ** More on the deduplication *)

Section DedupeMore.

Implicit Types (meals : list Meal) (key : string).

Lemma idMeal_injective_on (all : list Meal) (a b : Meal) :
  List.NoDup (ids all) -> In a all -> In b all -> idMeal a = idMeal b -> a = b.
Proof.
  induction all as [|c all IH]; simpl; [tauto|].
  intros Hnd Ha Hb E. apply NoDup_cons_iff in Hnd. destruct Hnd as [Hc Hnd].
  destruct Ha as [->|Ha], Hb as [->|Hb]; auto.
  - exfalso. apply Hc. rewrite E. unfold ids. apply in_map_iff. now exists b.
  - exfalso. apply Hc. rewrite <- E. unfold ids. apply in_map_iff. now exists a.
Qed.

Lemma same_ids_same_records (all out meals : list Meal) :
  List.NoDup (ids all) ->
  (forall r, In r out -> In r all) ->
  (forall r, In r meals -> In r all) ->
  ids out = ids meals ->
  out = meals.
Proof.
  intros Hnd. revert meals.
  induction out as [|b out IH]; intros [|a meals] Hout Hmeals E;
    try discriminate; [reflexivity|].
  simpl in E. injection E as Eb Erest.
  f_equal.
  - apply (idMeal_injective_on all); auto using in_eq.
  - apply IH; auto using in_cons.
Qed.

Lemma lastWithId_None key meals : lastWithId key meals = None <-> ~ In key (ids meals).
Proof.
  unfold lastWithId. split.
  - intros Hnone Hin. unfold ids in Hin. apply in_map_iff in Hin.
    destruct Hin as [r [E Hr]]. apply in_rev in Hr.
    apply (find_none _ _ Hnone) in Hr. simpl in Hr.
    rewrite E, String.eqb_refl in Hr. discriminate.
  - intros Hnot. destruct (List.find _ (rev meals)) as [r|] eqn:Hfind; [|reflexivity].
    exfalso. apply Hnot. apply find_some in Hfind. destruct Hfind as [Hr E].
    apply String.eqb_eq in E. subst key. unfold ids. apply in_map_iff.
    exists r. split; [reflexivity | now apply in_rev].
Qed.

Lemma dedupe_fixed meals : List.NoDup (ids meals) -> dedupe meals = meals.
Proof.
  intros Hnd. apply (same_ids_same_records meals); auto.
  - intros r Hr. apply dedupe_In, lastWithId_id in Hr. tauto.
  - rewrite dedupe_ids. now apply firstSeen_NoDup_id.
Qed.

(** X10.  A list in which no identifier repeats passes the deduplication
    unchanged. *)
Theorem dedupe_without_repeats meals :
  List.NoDup (ids meals) -> dedupe meals = meals.
Proof. apply dedupe_fixed. Qed.

Lemma dedupe_without_repeats_witness :
  List.NoDup (ids [mkMeal "7" "Soup" ""; mkMeal "3" "Pie" ""; mkMeal "5" "Soup" ""])
  /\ dedupe [mkMeal "7" "Soup" ""; mkMeal "3" "Pie" ""; mkMeal "5" "Soup" ""]
     = [mkMeal "7" "Soup" ""; mkMeal "3" "Pie" ""; mkMeal "5" "Soup" ""].
Proof.
  assert (H : List.NoDup
                (ids [mkMeal "7" "Soup" ""; mkMeal "3" "Pie" ""; mkMeal "5" "Soup" ""])).
  { repeat constructor; simpl; intuition discriminate. }
  split; [exact H|].
  exact (dedupe_without_repeats
           [mkMeal "7" "Soup" ""; mkMeal "3" "Pie" ""; mkMeal "5" "Soup" ""] H).
Defined.

(** X9.  Deduplicating twice is deduplicating once. *)
Theorem dedupe_idempotent meals : dedupe (dedupe meals) = dedupe meals.
Proof.
  apply dedupe_fixed. rewrite dedupe_ids. apply firstSeen_NoDup.
Qed.

(** X11.  The map built from a list holds, under every identifier of the
    list, the last record that carries it, and nothing under any other
    key; its keys are the identifiers, each once, in the order of their
    first appearance. *)
Theorem buildMealMap_lookup meals key :
  JsMap.get key (buildMealMap meals) = lastWithId key meals
  /\ (JsMap.get key (buildMealMap meals) = None <-> ~ In key (ids meals))
  /\ (forall r, JsMap.get key (buildMealMap meals) = Some r -> idMeal r = key /\ In r meals)
  /\ JsMap.keys (buildMealMap meals) = firstSeen (ids meals)
  /\ List.NoDup (JsMap.keys (buildMealMap meals)).
Proof.
  rewrite buildMealMap_get, buildMealMap_keys.
  split; [reflexivity|].
  split; [apply lastWithId_None|].
  split; [intros r; apply lastWithId_id | split; [reflexivity | apply firstSeen_NoDup]].
Qed.

(** X12.  What [main] displays after the intersection and the
    deduplication, for one list or more: every record is a record of the
    first list, its identifier occurs in every list, and no identifier is
    displayed twice. *)
Theorem final_records_from_first_list (first : list Meal) (rest : list (list Meal)) :
  exists result,
    intersectAll (first :: rest) = Some result
    /\ (forall r, In r (dedupe result)
                  -> In r first /\ forall meals, In meals (first :: rest) -> idMeal r ∈ idset meals)
    /\ List.NoDup (ids (dedupe result)).
Proof.
  exists (intersectRightNested (first :: rest)).
  split; [apply intersectAll_returns|].
  split; [|rewrite dedupe_ids; apply firstSeen_NoDup].
  intros r Hr. apply dedupe_In, lastWithId_id in Hr. destruct Hr as [_ Hr].
  split.
  - rewrite intersectRightNested_cons in Hr. destruct rest; [exact Hr|].
    apply filter_In in Hr. tauto.
  - assert (Hkey : idMeal r ∈ idset (intersectRightNested (first :: rest))).
    { apply elem_of_idset. unfold ids. apply in_map_iff. now exists r. }
    apply intersectRightNested_idset in Hkey. tauto.
Qed.

End DedupeMore.

(** ** More on parsing *)

Section ParsingMore.

Local Ltac by_cases_on c :=
  destruct c as [[] [] [] [] [] [] [] []]; vm_compute; try reflexivity; try congruence.

Lemma toLowerChar_comma (c : ascii) :
  Ascii.eqb (toLowerChar c) ","%char = Ascii.eqb c ","%char.
Proof. by_cases_on c. Qed.

Lemma split_comma_toLowerCase (s : string) :
  split_comma (toLowerCase s) = List.map toLowerCase (split_comma s).
Proof.
  induction s as [|c s IH]; [reflexivity|].
  cbn [toLowerCase split_comma]. rewrite toLowerChar_comma, IH.
  destruct (Ascii.eqb c ","); [reflexivity|].
  destruct (split_comma s); reflexivity.
Qed.

Lemma trimStart_toLowerCase (s : string) :
  trimStart (toLowerCase s) = toLowerCase (trimStart s).
Proof.
  induction s as [|c s IH]; [reflexivity|].
  cbn [toLowerCase trimStart]. rewrite toLowerChar_white.
  destruct (isWhiteSpace c); [exact IH | reflexivity].
Qed.

Lemma trimEnd_toLowerCase (s : string) :
  trimEnd (toLowerCase s) = toLowerCase (trimEnd s).
Proof.
  induction s as [|c s IH]; [reflexivity|].
  cbn [toLowerCase]. rewrite !trimEnd_cons, IH, toLowerChar_white.
  destruct (trimEnd s) as [|d t]; cbn; [|reflexivity].
  destruct (isWhiteSpace c); reflexivity.
Qed.

Lemma normalize_toLowerCase (piece : string) :
  normalize (toLowerCase piece) = normalize piece.
Proof.
  unfold normalize, trim.
  now rewrite trimStart_toLowerCase, trimEnd_toLowerCase, toLowerCase_idempotent.
Qed.

(** X13.  On inputs made of code units below U+0100 (ASCII and Latin-1),
    where [toLowerCase] works unit by unit, the parser does not see the
    case of the letters: an input and its lower-case form give the same
    tokens. *)
Theorem parseIngredients_ignores_case (raw : string) :
  parseIngredients (toLowerCase raw) = parseIngredients raw.
Proof.
  unfold parseIngredients. rewrite split_comma_toLowerCase, map_map.
  f_equal. apply map_ext. intros piece. apply normalize_toLowerCase.
Qed.

Lemma split_comma_length (s : string) : length (split_comma s) = S (commas s).
Proof.
  induction s as [|c s IH]; [reflexivity|].
  cbn [split_comma commas]. destruct (Ascii.eqb c ","); simpl; [now rewrite IH|].
  destruct (split_comma s); simpl in *; [discriminate | exact IH].
Qed.

Lemma all_white_trimStart (s : string) :
  trimStart s = "" <-> all_chars isWhiteSpace s = true.
Proof.
  induction s as [|c s IH]; [simpl; tauto|].
  cbn [trimStart all_chars]. destruct (isWhiteSpace c); [exact IH|].
  simpl. split; discriminate.
Qed.

Lemma all_white_trimEnd (s : string) :
  trimEnd s = "" <-> all_chars isWhiteSpace s = true.
Proof.
  induction s as [|c s IH]; [simpl; tauto|].
  rewrite trimEnd_cons. cbn [all_chars].
  destruct (trimEnd s) as [|d t] eqn:Ht.
  - assert (Hs : all_chars isWhiteSpace s = true) by now apply IH.
    rewrite Hs, andb_true_r. cbn. destruct (isWhiteSpace c); split; congruence.
  - cbn. split; [discriminate|]. intros H. apply andb_true_iff in H.
    destruct H as [_ H]. apply IH in H. discriminate.
Qed.

Lemma all_white_trim (s : string) : trim s = "" <-> all_chars isWhiteSpace s = true.
Proof.
  unfold trim. split.
  - intros H. apply all_white_trimStart.
    apply all_white_trimEnd in H.
    destruct (trimStart s) as [|c t] eqn:E; [reflexivity|].
    simpl in H. apply andb_true_iff in H. destruct H as [Hc _].
    assert (Hfirst : first (trimStart s) = Some c) by now rewrite E.
    apply trimStart_first in Hfirst. congruence.
  - intros H. apply all_white_trimStart in H. now rewrite H.
Qed.

Lemma all_white_normalize (piece : string) :
  normalize piece = "" <-> all_chars isWhiteSpace piece = true.
Proof.
  rewrite <- all_white_trim. unfold normalize. split.
  - apply toLowerCase_empty.
  - intros ->. reflexivity.
Qed.

Lemma blank_split_comma (s : string) :
  all_chars blankOrComma s = List.forallb (all_chars isWhiteSpace) (split_comma s).
Proof.
  induction s as [|c s IH]; [reflexivity|].
  cbn [all_chars split_comma]. unfold blankOrComma at 1.
  destruct (Ascii.eqb c ",").
  - rewrite orb_true_r. exact IH.
  - rewrite orb_false_r, IH.
    destruct (split_comma s) as [|p ps] eqn:Hs; [now apply split_comma_not_nil in Hs|].
    cbn. now rewrite andb_assoc.
Qed.

Lemma filter_normalize_nil (pieces : list string) :
  List.filter nonEmpty (List.map normalize pieces) = []
  <-> List.forallb (all_chars isWhiteSpace) pieces = true.
Proof.
  induction pieces as [|p pieces IH]; [simpl; tauto|].
  cbn [List.map List.filter List.forallb].
  destruct (all_chars isWhiteSpace p) eqn:Hp.
  - apply all_white_normalize in Hp. rewrite Hp. cbn. exact IH.
  - assert (Hne : normalize p <> "").
    { intros E. apply all_white_normalize in E. congruence. }
    apply nonEmpty_true in Hne. rewrite Hne. cbn. split; discriminate.
Qed.

(** X14.  On inputs made of code units below U+0100 (ASCII and Latin-1):
    the parser gives at most one token more than the input has commas, and
    it gives no token at all exactly when the input consists only of
    commas and of the white space of that range (TAB, LF, VT, FF, CR, SP,
    NBSP); that is when the validation reports the empty list. *)
Theorem parseIngredients_count (raw : string) :
  length (parseIngredients raw) <= S (commas raw)
  /\ (parseIngredients raw = [] <-> all_chars blankOrComma raw = true)
  /\ (validateIngredients (parseIngredients raw) = Some EmptyIngredientList
      <-> all_chars blankOrComma raw = true).
Proof.
  assert (Hnil : parseIngredients raw = [] <-> all_chars blankOrComma raw = true).
  { rewrite blank_split_comma. apply filter_normalize_nil. }
  split; [|split; [exact Hnil|]].
  - unfold parseIngredients.
    etransitivity; [apply List.filter_length_le|].
    now rewrite length_map, split_comma_length.
  - rewrite <- Hnil. unfold validateIngredients.
    destruct (parseIngredients raw) as [|t ts]; [tauto|].
    cbn [length Nat.eqb]. split; [|discriminate].
    destruct (6 <? S (length ts))%nat; [discriminate|].
    destruct (List.find _ (t :: ts)) as [short|]; [|discriminate].
    destruct (truthy short); discriminate.
Qed.

End ParsingMore.

Section RoundTrip.

Local Ltac by_cases_on c :=
  destruct c as [[] [] [] [] [] [] [] []]; vm_compute; try reflexivity; try congruence.

Lemma append_cons (x : ascii) (a b : string) : String x a +:+ b = String x (a +:+ b).
Proof. reflexivity. Qed.

Lemma append_assoc (a b c : string) : (a +:+ b) +:+ c = a +:+ (b +:+ c).
Proof.
  induction a as [|x a IH]; [reflexivity|].
  rewrite !append_cons. f_equal. exact IH.
Qed.

Lemma all_chars_append (p : ascii -> bool) (a b : string) :
  all_chars p (a +:+ b) = all_chars p a && all_chars p b.
Proof.
  induction a as [|x a IH]; [reflexivity|].
  rewrite append_cons. cbn [all_chars]. rewrite <- andb_assoc. f_equal. exact IH.
Qed.

Lemma all_chars_trimStart (p : ascii -> bool) (s : string) :
  all_chars p s = true -> all_chars p (trimStart s) = true.
Proof.
  induction s as [|c s IH]; [trivial|].
  cbn [trimStart]. destruct (isWhiteSpace c); [|trivial].
  simpl. intros H. apply andb_true_iff in H. now apply IH.
Qed.

Lemma all_chars_trimEnd (p : ascii -> bool) (s : string) :
  all_chars p s = true -> all_chars p (trimEnd s) = true.
Proof.
  induction s as [|c s IH]; [trivial|].
  rewrite trimEnd_cons. cbn [all_chars]. intros H. apply andb_true_iff in H.
  destruct H as [Hc Hs]. specialize (IH Hs).
  destruct (trimEnd s) as [|d t]; cbn.
  - destruct (isWhiteSpace c); cbn; [reflexivity | now rewrite Hc].
  - cbn in IH. now rewrite Hc, IH.
Qed.

Lemma noComma_toLowerCase (s : string) : noComma (toLowerCase s) = noComma s.
Proof.
  unfold noComma. induction s as [|c s IH]; [reflexivity|].
  cbn [toLowerCase all_chars]. now rewrite toLowerChar_comma, IH.
Qed.

Lemma noComma_normalize (piece : string) :
  noComma piece = true -> noComma (normalize piece) = true.
Proof.
  intros H. unfold normalize. rewrite noComma_toLowerCase.
  unfold noComma, trim in *. now apply all_chars_trimEnd, all_chars_trimStart.
Qed.

Lemma parseIngredients_noComma (raw : string) :
  Forall (fun t => noComma t = true) (parseIngredients raw).
Proof.
  unfold parseIngredients. apply List.Forall_forall. intros t Ht.
  apply filter_In in Ht. destruct Ht as [Ht _].
  apply in_map_iff in Ht. destruct Ht as [piece [<- Hp]].
  apply noComma_normalize.
  pose proof (split_comma_no_comma raw) as Hall.
  rewrite List.Forall_forall in Hall. now apply Hall.
Qed.

Lemma split_comma_whole (a : string) : noComma a = true -> split_comma a = [a].
Proof.
  unfold noComma. induction a as [|c a IH]; [reflexivity|].
  cbn [all_chars split_comma]. intros H. apply andb_true_iff in H. destruct H as [Hc Ha].
  apply negb_true_iff in Hc. rewrite Hc, (IH Ha). reflexivity.
Qed.

Lemma split_comma_append (a b : string) :
  noComma a = true ->
  split_comma (a +:+ String ","%char b) = a :: split_comma b.
Proof.
  unfold noComma. induction a as [|c a IH]; [reflexivity|].
  rewrite append_cons. cbn [all_chars split_comma]. intros H. apply andb_true_iff in H.
  destruct H as [Hc Ha]. apply negb_true_iff in Hc. rewrite Hc, (IH Ha). reflexivity.
Qed.

Lemma join_cons2 (sep t t2 : string) (ts : list string) :
  join sep (t :: t2 :: ts) = t +:+ sep +:+ join sep (t2 :: ts).
Proof. reflexivity. Qed.

(** The pieces of a sequence of tokens joined by a comma and a space:
    the first token, and every later token after a space. *)
Lemma split_comma_join (tokens : list string) (pre t : string) :
  Forall (fun t => noComma t = true) (t :: tokens) ->
  noComma pre = true ->
  split_comma (pre +:+ join ", " (t :: tokens))
  = (pre +:+ t) :: List.map (fun t' => " " +:+ t') tokens.
Proof.
  revert pre t. induction tokens as [|t2 tokens IH]; intros pre t Hall Hpre.
  - apply split_comma_whole. unfold noComma in *. rewrite all_chars_append.
    inversion Hall; subst. now rewrite Hpre.
  - inversion Hall as [|? ? Ht Hrest]; subst.
    rewrite join_cons2.
    change (", " +:+ join ", " (t2 :: tokens))
      with (String ","%char (" " +:+ join ", " (t2 :: tokens))).
    replace (pre +:+ t +:+ String ","%char (" " +:+ join ", " (t2 :: tokens)))
      with ((pre +:+ t) +:+ String ","%char (" " +:+ join ", " (t2 :: tokens)))
      by apply append_assoc.
    rewrite split_comma_append.
    + rewrite (IH " " t2 Hrest eq_refl). reflexivity.
    + unfold noComma in *. rewrite all_chars_append. now rewrite Hpre.
Qed.

Lemma normalize_after_space (t : string) : normalized t -> normalize (" " +:+ t) = t.
Proof.
  intros [_ Hlower _ Htrim _ _]. unfold normalize.
  change (trim (" " +:+ t)) with (trim t). now rewrite Htrim.
Qed.

Lemma normalize_fixed (t : string) : normalized t -> normalize t = t.
Proof. intros [_ Hlower _ Htrim _ _]. unfold normalize. now rewrite Htrim. Qed.

(** Tokens as the parser gives them, joined by a comma and a space,
    parse back to themselves. *)
Lemma parseIngredients_join (tokens : list string) :
  Forall normalized tokens ->
  Forall (fun t => noComma t = true) tokens ->
  parseIngredients (join ", " tokens) = tokens.
Proof.
  intros Hnorm Hcomma. destruct tokens as [|t tokens]; [reflexivity|].
  unfold parseIngredients.
  change (join ", " (t :: tokens)) with ("" +:+ join ", " (t :: tokens)).
  rewrite (split_comma_join tokens "" t Hcomma eq_refl).
  fold normalize. fold nonEmpty.
  cbn [List.map]. change ("" +:+ t) with t. rewrite map_map.
  inversion Hnorm as [|? ? Ht Hts]; subst.
  rewrite (normalize_fixed t Ht).
  assert (Hmap : List.map (fun t' => normalize (" " +:+ t')) tokens = tokens).
  { clear -Hts. induction Hts as [|x l Hx _ IH]; [reflexivity|].
    cbn [List.map]. now rewrite (normalize_after_space x Hx), IH. }
  rewrite Hmap.
  apply (filter_all nonEmpty (t :: tokens)). intros x Hx.
  apply nonEmpty_true. rewrite List.Forall_forall in Hnorm.
  now destruct (Hnorm x Hx).
Qed.

(** X15.  On inputs made of code units below U+0100 (ASCII and Latin-1):
    the list of ingredients as the summary prints it, the tokens of the
    input joined by a comma and a space, parses back to the same tokens. *)
Theorem parseIngredients_of_printed (raw : string) :
  parseIngredients (join ", " (parseIngredients raw)) = parseIngredients raw.
Proof.
  apply parseIngredients_join.
  - apply parseIngredients_normalized.
  - apply parseIngredients_noComma.
Qed.

(** X16.  On any list of strings, also one the parser would not give:
    the validation reports a short token exactly when there are one to
    six strings and the first string shorter than two characters is not
    empty; when that first short string is the empty one, the list passes,
    whatever comes after it. *)
Theorem validateIngredients_any_list (tokens : list string) :
  (validateIngredients tokens = Some EmptyIngredientList <-> tokens = [])
  /\ (validateIngredients tokens = Some TooManyIngredients <-> 6 < length tokens)
  /\ (forall t, validateIngredients tokens = Some (IngredientTooShort t)
                <-> 1 <= length tokens <= 6
                    /\ List.find isShort tokens = Some t /\ t <> "")
  /\ (validateIngredients tokens = None
      <-> 1 <= length tokens <= 6
          /\ (List.find isShort tokens = None \/ List.find isShort tokens = Some "")).
Proof.
  unfold validateIngredients. fold isShort.
  change (fun i => (String.length i <? 2)%nat) with isShort.
  destruct tokens as [|t0 ts].
  { cbn. repeat split; intros; try discriminate; try lia;
      try (destruct H as [? _]; lia). }
  cbn [length Nat.eqb].
  destruct (Nat.ltb_spec 6 (S (length ts))) as [H6|H6].
  { repeat split; intros; try discriminate; try lia; try (destruct H as [? _]; lia). }
  destruct (List.find isShort (t0 :: ts)) as [short|].
  - destruct short as [|c short]; cbn [truthy].
    + repeat split; intros; try discriminate; try lia; auto.
      destruct H as [_ [[= <-] Hne]]. now contradiction Hne.
    + repeat split; intros; try discriminate; try lia.
      * now injection H as <-.
      * injection H as <-. discriminate.
      * destruct H as [_ [[= <-] _]]. reflexivity.
      * destruct H as [_ [H|H]]; discriminate.
  - repeat split; intros; try discriminate; try lia; auto.
    destruct H as [_ [H _]]. discriminate.
Qed.

(** The edge of X16 on an input: the empty string hides the short one. *)
Example validateIngredients_hidden_short_token :
  validateIngredients [""; "a"; "rice"] = None
  /\ validateIngredients ["a"; ""; "rice"] = Some (IngredientTooShort "a").
Proof. split; reflexivity. Qed.

End RoundTrip.

(** ** More on the requests and on [main] *)

Section MainMore.

Variable localeCompare : string -> string -> Z.
Variable request : string -> response.
Implicit Types (w : world) (e : error) (raw : string).

Lemma fetchAll_resolved (ingredients : list string) (mealLists : list (list Meal)) w :
  List.forallb (resolved request) ingredients = true ->
  fetchAll request ingredients mealLists w
  = (Return (mealLists ++ List.map (answerOf request) ingredients),
     emit (foundLines request ingredients) w).
Proof.
  revert mealLists w. induction ingredients as [|ing rest IH]; intros mealLists w Hall.
  - cbn. now rewrite app_nil_r, emit_nil.
  - cbn [List.forallb] in Hall. apply andb_true_iff in Hall. destruct Hall as [Hing Hrest].
    cbn [fetchAll foundLines List.map]. unfold fetchMealsByIngredient, resolved, answerOf in *.
    destruct (request ing) as [r|cause]; [|discriminate].
    replace (match Resolved r with
             | Resolved (Some meals) => mret meals
             | Resolved None => mret []
             | Rejected cause => throw (LookupFailure cause)
             end) with (mret (answered r) : M (list Meal)) by now destruct r.
    rewrite bind_run, ret_run. cbv iota beta.
    rewrite bind_run, log_run. cbv iota beta.
    rewrite (IH _ _ Hrest), emit_emit, <- app_assoc. reflexivity.
Qed.

Lemma fetchAll_rejected (before after : list string) (ing cause : string)
    (mealLists : list (list Meal)) w :
  List.forallb (resolved request) before = true ->
  request ing = Rejected cause ->
  fetchAll request (before ++ ing :: after) mealLists w
  = (Throw (LookupFailure cause), emit (foundLines request before) w).
Proof.
  revert mealLists w. induction before as [|b before IH]; intros mealLists w Hall Hing.
  - cbn [app fetchAll]. unfold fetchMealsByIngredient. rewrite Hing.
    rewrite bind_run. unfold throw. now rewrite emit_nil.
  - cbn [List.forallb] in Hall. apply andb_true_iff in Hall. destruct Hall as [Hb Hrest].
    cbn [app fetchAll foundLines List.map]. unfold fetchMealsByIngredient, resolved, answerOf in *.
    destruct (request b) as [r|c]; [|discriminate].
    replace (match Resolved r with
             | Resolved (Some meals) => mret meals
             | Resolved None => mret []
             | Rejected cause => throw (LookupFailure cause)
             end) with (mret (answered r) : M (list Meal)) by now destruct r.
    rewrite bind_run, ret_run. cbv iota beta.
    rewrite bind_run, log_run. cbv iota beta.
    rewrite (IH _ _ Hrest Hing), emit_emit. reflexivity.
Qed.

Lemma fold_left_sum (arr : list Meal) (start : nat) :
  List.fold_left (fun sum meal => sum + String.length (strMeal meal)) arr start
  = start + list_sum (List.map (fun meal => String.length (strMeal meal)) arr).
Proof.
  revert start. induction arr as [|m arr IH]; intros start; simpl; [lia|].
  rewrite IH. lia.
Qed.

Lemma printSummary_run (ingredients : list string) (meals : nat) (arr : list Meal) w :
  heap w !! meals = Some arr ->
  printSummary ingredients meals w = (Return tt, emit (summaryLines ingredients arr) w).
Proof.
  intros H. unfold printSummary.
  rewrite (bind_returns _ _ _ _ _ (read_run meals arr w H)).
  cbv zeta. rewrite fold_left_sum. cbn [Nat.add].
  repeat (rewrite bind_run, log_run; cbv iota beta).
  rewrite log_run, !emit_emit. reflexivity.
Qed.

Lemma lookupAll_resolved (ingredients : list string) :
  snd (lookupAll request ingredients) = None ->
  List.forallb (resolved request) ingredients = true
  /\ fst (lookupAll request ingredients) = foundLines request ingredients.
Proof.
  induction ingredients as [|ing rest IH]; [now split|].
  cbn [lookupAll List.forallb foundLines List.map]. unfold resolved, answerOf.
  destruct (request ing) as [r|cause]; cbn [fst snd]; [|discriminate].
  intros H. destruct (IH H) as [H1 H2]. split; [exact H1|].
  now rewrite H2.
Qed.

Lemma frames_refl (h : gmap nat (list Meal)) : frames h h.
Proof. intros ref _. reflexivity. Qed.

Lemma frames_trans (h1 h2 h3 : gmap nat (list Meal)) :
  frames h1 h2 -> frames h2 h3 -> frames h1 h3.
Proof.
  intros H12 H23 ref Href. rewrite H23; [now apply H12|].
  rewrite H12; assumption.
Qed.

Lemma frames_alloc (h : gmap nat (list Meal)) (arr : list Meal) :
  frames h (<[fresh (dom h) := arr]> h).
Proof. intros ref Href. now apply (frame_alloc h h arr (frames_refl h)). Qed.

(** A cycle in which nothing fails, up to the question. *)
Lemma cycle_succeeds (restart : M unit) w raw (rest : list string) :
  stdin w = raw :: rest ->
  cycleFailure request raw = None ->
  exists h',
    frames (heap w) h'
    /\ cycle localeCompare request restart w
       = afterCycle restart
           (mkWorld h'
              (console w ++ banner
               ++ Log (nl +:+ "Searching recipes...") :: foundLines request (parseIngredients raw)
               ++ displayLines localeCompare (cycleMeals request raw)
               ++ summaryLines (parseIngredients raw) (cycleMeals request raw))
              rest (readers w)).
Proof.
  intros Hin Hok. unfold cycle.
  rewrite bind_run, log_run. cbv iota beta.
  rewrite bind_run, log_run. cbv iota beta.
  rewrite bind_run, log_run. cbv iota beta.
  rewrite !emit_emit. cbn [app].
  erewrite bind_returns; [|apply ask_run; exact Hin].
  rewrite emit_emit. cbn [app]. fold banner.
  unfold cycleFailure in Hok. unfold validate.
  destruct (validateIngredients (parseIngredients raw)) as [e0|]; [discriminate|].
  apply lookupAll_resolved in Hok. destruct Hok as [Hres _].
  rewrite bind_run, ret_run. cbv iota beta.
  rewrite bind_run, log_run. cbv iota beta.
  rewrite bind_run, (fetchAll_resolved _ _ _ Hres). cbv iota beta. cbn [app].
  unfold cycleMeals. rewrite intersectAll_returns.
  cbn [bounded]. rewrite bind_run, ret_run. cbv iota beta.
  set (arr := dedupe (intersectRightNested (List.map (answerOf request) (parseIngredients raw)))).
  change (JsMap.values (buildMealMap (intersectRightNested
            (List.map (answerOf request) (parseIngredients raw))))) with arr.
  rewrite bind_run. unfold alloc at 1. cbv iota beta.
  set (w0 := emit (foundLines request (parseIngredients raw)) _).
  set (ref := fresh (dom (heap w0))).
  set (w1 := set_heap (<[ref := arr]> (heap w0)) w0).
  assert (H1 : heap w1 !! ref = Some arr) by apply lookup_insert_eq.
  destruct (displayMeals_run localeCompare ref arr w1 H1) as [h' [Hrun Hframe]].
  rewrite bind_run, Hrun. cbv iota beta.
  set (w2 := mkWorld h' _ _ _).
  assert (H2 : heap w2 !! ref = Some arr).
  { subst w2. cbn [heap]. rewrite Hframe; [exact H1 | now exists arr]. }
  rewrite bind_run, (printSummary_run _ ref arr w2 H2). cbv iota beta.
  exists h'. split.
  - apply (frames_trans _ (heap w1)); [|exact Hframe].
    subst w1 ref w0. cbn [heap emit set_console set_stdin set_heap]. apply frames_alloc.
  - unfold afterCycle. f_equal.
    subst w2 w1 w0. unfold emit, set_console, set_stdin, set_heap.
    cbn [heap console stdin readers]. f_equal.
    rewrite <- !app_assoc. reflexivity.
Qed.

Lemma afterCycle_pending (restart : M unit) w :
  stdin w = [] ->
  afterCycle restart w = (Pending, emit [Question "Search again? (y/n): "] w).
Proof. intros H. unfold afterCycle. rewrite bind_run. unfold ask. now rewrite H. Qed.

Lemma afterCycle_no (restart : M unit) w (answer : string) (rest : list string) :
  stdin w = answer :: rest ->
  isYes (normalize answer) = false ->
  afterCycle restart w
  = (Return tt,
     mkWorld (heap w) (console w ++ [Question "Search again? (y/n): "; goodbyeLine])
       rest (readers w)).
Proof.
  intros Hin Hno. unfold afterCycle.
  rewrite (bind_returns _ _ _ _ _ (ask_run _ w answer rest Hin)).
  cbv zeta. fold (normalize answer). rewrite Hno, log_run.
  unfold emit, set_console, set_stdin. cbn [heap console stdin readers].
  now rewrite <- app_assoc.
Qed.

Lemma afterCycle_yes (restart : M unit) w (answer : string) (rest : list string) :
  stdin w = answer :: rest ->
  isYes (normalize answer) = true ->
  afterCycle restart w
  = restart (mkWorld (heap w)
               (console w ++ [Question "Search again? (y/n): "; separatorLine])
               rest (readers w)).
Proof.
  intros Hin Hyes. unfold afterCycle.
  rewrite (bind_returns _ _ _ _ _ (ask_run _ w answer rest Hin)).
  cbv zeta. fold (normalize answer). rewrite Hyes, bind_run, log_run. cbv iota beta.
  unfold emit, set_console, set_stdin. cbn [heap console stdin readers].
  now rewrite <- app_assoc.
Qed.

Lemma cycle_waits (restart : M unit) w :
  stdin w = [] -> cycle localeCompare request restart w = (Pending, emit banner w).
Proof.
  intros Hin. unfold cycle.
  rewrite bind_run, log_run. cbv iota beta.
  rewrite bind_run, log_run. cbv iota beta.
  rewrite bind_run, log_run. cbv iota beta.
  rewrite !emit_emit. cbn [app].
  rewrite bind_run. unfold ask. cbn [stdin emit set_console]. rewrite Hin.
  cbv iota beta. f_equal.
  unfold emit, set_console. cbn [heap console stdin readers].
  now rewrite <- app_assoc.
Qed.

Lemma main_unfold (fuel : nat) w :
  main localeCompare request (S fuel) w
  = try_catch_finally (cycle localeCompare request (main localeCompare request fuel))
      report close (set_readers (S (readers w)) w).
Proof. reflexivity. Qed.

Lemma main_waits_first (fuel : nat) w :
  stdin w = [] ->
  main localeCompare request (S fuel) w
  = (Pending, mkWorld (heap w) (console w ++ banner) [] (S (readers w))).
Proof.
  intros Hin. rewrite main_unfold. unfold try_catch_finally.
  rewrite (cycle_waits _ (set_readers (S (readers w)) w) Hin).
  unfold emit, set_console, set_readers. cbn [heap console stdin readers].
  now rewrite Hin.
Qed.

(** The world in which the question of a cycle without failure is put. *)
Lemma cycle_question (restart : M unit) w raw (rest : list string) :
  stdin w = raw :: rest ->
  cycleFailure request raw = None ->
  exists h',
    frames (heap w) h'
    /\ forall w1,
         w1 = mkWorld h' (console w ++ cycleOutput localeCompare request raw) rest (readers w) ->
         match rest with
         | [] => cycle localeCompare request restart w = (Pending, w1)
         | answer :: rest' =>
             if isYes (normalize answer)
             then cycle localeCompare request restart w
                  = restart (set_stdin rest' (emit [separatorLine] w1))
             else cycle localeCompare request restart w
                  = (Return tt, set_stdin rest' (emit [goodbyeLine] w1))
         end.
Proof.
  intros Hin Hok.
  destruct (cycle_succeeds restart w raw rest Hin Hok) as [h' [Hframe Hrun]].
  exists h'. split; [exact Hframe|]. intros w1 ->. rewrite Hrun. clear Hrun.
  unfold cycleOutput.
  destruct rest as [|answer rest'].
  - rewrite afterCycle_pending by reflexivity.
    unfold emit, set_console. cbn [heap console stdin readers].
    rewrite <- !app_assoc. cbn [app]. rewrite <- !app_assoc. reflexivity.
  - destruct (isYes (normalize answer)) eqn:Hyes.
    + erewrite afterCycle_yes; [|reflexivity | exact Hyes].
      unfold emit, set_console, set_stdin. cbn [heap console stdin readers].
      rewrite <- !app_assoc. cbn [app]. rewrite <- !app_assoc. reflexivity.
    + erewrite afterCycle_no; [|reflexivity | exact Hyes].
      unfold emit, set_console, set_stdin. cbn [heap console stdin readers].
      rewrite <- !app_assoc. cbn [app]. rewrite <- !app_assoc. reflexivity.
Qed.

Lemma main_waits_second (fuel : nat) w raw :
  stdin w = [raw] ->
  cycleFailure request raw = None ->
  exists h',
    frames (heap w) h'
    /\ main localeCompare request (S fuel) w
       = (Pending,
          mkWorld h' (console w ++ cycleOutput localeCompare request raw) [] (S (readers w))).
Proof.
  intros Hin Hok. rewrite main_unfold. unfold try_catch_finally.
  destruct (cycle_question (main localeCompare request fuel)
              (set_readers (S (readers w)) w) raw [] Hin Hok) as [h' [Hframe Hrun]].
  exists h'. split; [exact Hframe|].
  now rewrite (Hrun _ eq_refl).
Qed.

Lemma main_declined_run (fuel : nat) w raw (answer : string) (rest : list string) :
  stdin w = raw :: answer :: rest ->
  cycleFailure request raw = None ->
  isYes (normalize answer) = false ->
  exists h',
    frames (heap w) h'
    /\ main localeCompare request (S fuel) w
       = (Return tt,
          mkWorld h' (console w ++ cycleOutput localeCompare request raw ++ [goodbyeLine])
            rest (readers w)).
Proof.
  intros Hin Hok Hno. rewrite main_unfold. unfold try_catch_finally.
  destruct (cycle_question (main localeCompare request fuel)
              (set_readers (S (readers w)) w) raw (answer :: rest) Hin Hok)
    as [h' [Hframe Hrun]].
  exists h'. split; [exact Hframe|].
  specialize (Hrun _ eq_refl). cbv beta iota in Hrun. rewrite Hno in Hrun. rewrite Hrun.
  unfold close, emit, set_console, set_stdin, set_readers.
  cbn [heap console stdin readers Nat.pred]. now rewrite <- app_assoc.
Qed.

Lemma main_again_run (fuel : nat) w raw (answer : string) (rest : list string) :
  stdin w = raw :: answer :: rest ->
  cycleFailure request raw = None ->
  isYes (normalize answer) = true ->
  exists h',
    frames (heap w) h'
    /\ main localeCompare request (S fuel) w
       = match main localeCompare request fuel
                 (mkWorld h'
                    (console w ++ cycleOutput localeCompare request raw ++ [separatorLine])
                    rest (S (readers w))) with
         | (Return _, w2) => (Return tt, set_readers (pred (readers w2)) w2)
         | other => other
         end.
Proof.
  intros Hin Hok Hyes. rewrite main_unfold. unfold try_catch_finally.
  destruct (cycle_question (main localeCompare request fuel)
              (set_readers (S (readers w)) w) raw (answer :: rest) Hin Hok)
    as [h' [Hframe Hrun]].
  exists h'. split; [exact Hframe|].
  specialize (Hrun _ eq_refl). cbv beta iota in Hrun. rewrite Hyes in Hrun. rewrite Hrun.
  unfold emit, set_console, set_stdin, set_readers.
  cbn [heap console stdin readers]. rewrite <- app_assoc.
  match goal with |- context [main localeCompare request fuel ?w0] =>
    pose proof (main_no_throw localeCompare request fuel w0) as Hthrow;
    destruct (main localeCompare request fuel w0) as [[[]|e| |f] w2]
  end; try reflexivity.
  exfalso. exact (Hthrow e eq_refl).
Qed.

Lemma continues_refl w : continues w w.
Proof.
  split; [exists []; now rewrite app_nil_r|].
  split; [now exists [] | apply frames_refl].
Qed.

Lemma continues_trans w1 w2 w3 : continues w1 w2 -> continues w2 w3 -> continues w1 w3.
Proof.
  intros [[p1 H1] [[c1 I1] F1]] [[p2 H2] [[c2 I2] F2]].
  split; [exists (p1 ++ p2); now rewrite H2, H1, app_assoc|].
  split; [exists (c1 ++ c2); now rewrite I1, I2, app_assoc|].
  now apply (frames_trans _ (heap w2)).
Qed.

Lemma continues_step w (h' : gmap nat (list Meal)) (printed : list event)
    (consumed rest : list string) (n : nat) :
  stdin w = consumed ++ rest ->
  frames (heap w) h' ->
  continues w (mkWorld h' (console w ++ printed) rest n).
Proof.
  intros Hin Hframe.
  split; [now exists printed|]. split; [now exists consumed | exact Hframe].
Qed.

Lemma continues_set_readers w w' (n : nat) : continues w w' -> continues w (set_readers n w').
Proof. intros H. exact H. Qed.

(** What every call of [main] keeps, by induction on the depth of the
    calls. *)
Lemma main_invariants (fuel : nat) :
  forall w o w',
    main localeCompare request fuel w = (o, w') ->
    continues w w'
    /\ (o = Return tt -> readers w' = readers w)
    /\ (o = Pending -> readers w < readers w' /\ stdin w' = [])
    /\ (length (stdin w) < fuel -> o = Return tt \/ o = Pending).
Proof.
  induction fuel as [|fuel IH]; intros w o w' Hrun.
  { cbn in Hrun. injection Hrun as <- <-.
    split; [apply continues_refl|]. repeat split; try discriminate; lia. }
  destruct (stdin w) as [|raw rest] eqn:Hin.
  { rewrite (main_waits_first fuel w Hin) in Hrun. injection Hrun as <- <-.
    split; [apply (continues_step w _ _ []); [now rewrite Hin | apply frames_refl]|].
    cbn [readers stdin]. repeat split; try discriminate; auto; lia. }
  destruct (cycleFailure request raw) as [e|] eqn:Hfail.
  { rewrite (main_fails localeCompare request fuel w raw rest e Hin Hfail) in Hrun.
    injection Hrun as <- <-.
    split; [apply (continues_step w _ _ [raw]); [now rewrite Hin | apply frames_refl]|].
    cbn [readers stdin]. repeat split; try discriminate; auto. }
  destruct rest as [|answer rest].
  { destruct (main_waits_second fuel w raw Hin Hfail) as [h' [Hframe Hrun']].
    rewrite Hrun' in Hrun. injection Hrun as <- <-.
    split; [apply (continues_step w _ _ [raw]); [now rewrite Hin | exact Hframe]|].
    cbn [readers stdin]. repeat split; try discriminate; auto; lia. }
  destruct (isYes (normalize answer)) eqn:Hyes.
  - destruct (main_again_run fuel w raw answer rest Hin Hfail Hyes) as [h' [Hframe Hrun']].
    rewrite Hrun' in Hrun. clear Hrun'.
    set (w1 := mkWorld h' _ rest (S (readers w))) in Hrun.
    assert (Hw1 : continues w w1).
    { apply (continues_step w _ _ [raw; answer]); [now rewrite Hin | exact Hframe]. }
    destruct (main localeCompare request fuel w1) as [o2 w2] eqn:Hinner.
    destruct (IH w1 o2 w2 Hinner) as [Hcont [Hret [Hpend Hterm]]].
    assert (Hlen : length (raw :: answer :: rest) < S fuel -> o2 = Return tt \/ o2 = Pending).
    { intros Hl. apply Hterm. subst w1. cbn in *. lia. }
    destruct o2 as [[]|e| |f]; injection Hrun as <- <-.
    + split; [apply continues_set_readers, (continues_trans _ w1); assumption|].
      cbn [readers set_readers]. rewrite (Hret eq_refl). subst w1. cbn [readers].
      repeat split; try discriminate; auto.
    + split; [apply (continues_trans _ w1); assumption|].
      repeat split; try discriminate. exact Hlen.
    + split; [apply (continues_trans _ w1); assumption|].
      destruct (Hpend eq_refl) as [Hr Hs]. subst w1. cbn [readers] in Hr.
      repeat split; try discriminate; auto; lia.
    + split; [apply (continues_trans _ w1); assumption|].
      repeat split; try discriminate. exact Hlen.
  - destruct (main_declined_run fuel w raw answer rest Hin Hfail Hyes) as [h' [Hframe Hrun']].
    rewrite Hrun' in Hrun. injection Hrun as <- <-.
    split; [apply (continues_step w _ _ [raw; answer]); [now rewrite Hin | exact Hframe]|].
    cbn [readers stdin]. repeat split; try discriminate; auto.
Qed.

End MainMore.

(** X17.  When every request is answered, the loop of [main] returns one
    list for each ingredient, in the order of the ingredients and after
    the lists it was given, an answer without recipes counting as the
    empty list; it reports every answer on the terminal and changes
    nothing else. *)
Theorem fetchAll_in_order
    (request : string -> response) (ingredients : list string)
    (mealLists : list (list Meal)) (w : world) :
  List.forallb (resolved request) ingredients = true ->
  fetchAll request ingredients mealLists w
  = (Return (mealLists ++ List.map (answerOf request) ingredients),
     mkWorld (heap w) (console w ++ foundLines request ingredients) (stdin w) (readers w)).
Proof. intros H. now rewrite (fetchAll_resolved request ingredients mealLists w H). Qed.

Lemma fetchAll_in_order_witness :
  List.forallb (resolved sampleRequest) ["chicken"; "basil"; "rice"] = true
  /\ fetchAll sampleRequest ["chicken"; "basil"; "rice"] [] (mkWorld ∅ [] [] 0)
     = (Return ([] ++ List.map (answerOf sampleRequest) ["chicken"; "basil"; "rice"]),
        mkWorld (heap (mkWorld ∅ [] [] 0))
          (console (mkWorld ∅ [] [] 0)
           ++ foundLines sampleRequest ["chicken"; "basil"; "rice"])
          (stdin (mkWorld ∅ [] [] 0)) (readers (mkWorld ∅ [] [] 0))).
Proof.
  split; [reflexivity|].
  apply (fetchAll_in_order sampleRequest ["chicken"; "basil"; "rice"] [] (mkWorld ∅ [] [] 0)).
  reflexivity.
Defined.

(** X18.  The first request that fails ends the loop: the failure is
    thrown with the cause of the transport, the answers before it were
    reported on the terminal, and nothing is reported for the ingredients
    after it; the outcome is the same whichever ingredients follow. *)
Theorem fetchAll_stops_at_failure
    (request : string -> response) (before after : list string) (ing cause : string)
    (mealLists : list (list Meal)) (w : world) :
  List.forallb (resolved request) before = true ->
  request ing = Rejected cause ->
  fetchAll request (before ++ ing :: after) mealLists w
  = (Throw (LookupFailure cause),
     mkWorld (heap w) (console w ++ foundLines request before) (stdin w) (readers w)).
Proof.
  intros Hall Hing.
  now rewrite (fetchAll_rejected request before after ing cause mealLists w Hall Hing).
Qed.

Lemma fetchAll_stops_at_failure_witness :
  List.forallb (resolved sampleRequest) ["rice"] = true
  /\ sampleRequest "saffron" = Rejected "Network Error"
  /\ fetchAll sampleRequest (["rice"] ++ "saffron" :: ["chicken"]) [] (mkWorld ∅ [] [] 0)
     = (Throw (LookupFailure "Network Error"),
        mkWorld (heap (mkWorld ∅ [] [] 0))
          (console (mkWorld ∅ [] [] 0) ++ foundLines sampleRequest ["rice"])
          (stdin (mkWorld ∅ [] [] 0)) (readers (mkWorld ∅ [] [] 0))).
Proof.
  split; [reflexivity|]. split; [reflexivity|].
  apply (fetchAll_stops_at_failure sampleRequest ["rice"] ["chicken"] "saffron"
           "Network Error" [] (mkWorld ∅ [] [] 0)); reflexivity.
Defined.

(** X19.  A cycle in which nothing fails, answered with anything but
    yes: [main] prints the banner, the prompt, the progress of the
    requests, the recipes common to all the answers, deduplicated, the
    summary, the question and the farewell; it has read the two lines,
    closed its reader, left the arrays of the store as they were, and it
    returns. *)
Theorem main_declined_session
    (localeCompare : string -> string -> Z) (request : string -> response)
    (fuel : nat) (w : world) (raw answer : string) (rest : list string) :
  stdin w = raw :: answer :: rest ->
  cycleFailure request raw = None ->
  isYes (normalize answer) = false ->
  exists h',
    frames (heap w) h'
    /\ main localeCompare request (S fuel) w
       = (Return tt,
          mkWorld h' (console w ++ cycleOutput localeCompare request raw ++ [goodbyeLine])
            rest (readers w)).
Proof. apply main_declined_run. Qed.

Lemma main_declined_session_witness :
  stdin (mkWorld ∅ [] ["Chicken, rice"; "no"; "rice"] 0) = "Chicken, rice" :: "no" :: ["rice"]
  /\ cycleFailure sampleRequest "Chicken, rice" = None
  /\ isYes (normalize "no") = false
  /\ exists h',
       frames (heap (mkWorld ∅ [] ["Chicken, rice"; "no"; "rice"] 0)) h'
       /\ main codeUnitCompare sampleRequest 1 (mkWorld ∅ [] ["Chicken, rice"; "no"; "rice"] 0)
          = (Return tt,
             mkWorld h'
               (console (mkWorld ∅ [] ["Chicken, rice"; "no"; "rice"] 0)
                ++ cycleOutput codeUnitCompare sampleRequest "Chicken, rice" ++ [goodbyeLine])
               ["rice"] (readers (mkWorld ∅ [] ["Chicken, rice"; "no"; "rice"] 0))).
Proof.
  split; [reflexivity|]. split; [reflexivity|]. split; [reflexivity|].
  apply (main_declined_session codeUnitCompare sampleRequest 0
           (mkWorld ∅ [] ["Chicken, rice"; "no"; "rice"] 0) "Chicken, rice" "no" ["rice"]);
    reflexivity.
Defined.

(** X20.  A cycle in which nothing fails, answered with y or yes, in any
    case and with white space around it: [main] prints the separator and
    calls itself on the rest of the input with its own reader still open;
    when the inner call returns, it closes its reader and returns; when
    the inner call is left waiting, so is the outer one. *)
Theorem main_again_session
    (localeCompare : string -> string -> Z) (request : string -> response)
    (fuel : nat) (w : world) (raw answer : string) (rest : list string) :
  stdin w = raw :: answer :: rest ->
  cycleFailure request raw = None ->
  isYes (normalize answer) = true ->
  exists h',
    frames (heap w) h'
    /\ main localeCompare request (S fuel) w
       = match main localeCompare request fuel
                 (mkWorld h'
                    (console w ++ cycleOutput localeCompare request raw ++ [separatorLine])
                    rest (S (readers w))) with
         | (Return _, w2) => (Return tt, set_readers (pred (readers w2)) w2)
         | other => other
         end.
Proof. apply main_again_run. Qed.

Lemma main_again_session_witness :
  stdin (mkWorld ∅ [] ["rice"; " YES "; "chicken"; "n"] 0)
  = "rice" :: " YES " :: ["chicken"; "n"]
  /\ cycleFailure sampleRequest "rice" = None
  /\ isYes (normalize " YES ") = true
  /\ exists h',
       frames (heap (mkWorld ∅ [] ["rice"; " YES "; "chicken"; "n"] 0)) h'
       /\ main codeUnitCompare sampleRequest 2 (mkWorld ∅ [] ["rice"; " YES "; "chicken"; "n"] 0)
          = match main codeUnitCompare sampleRequest 1
                    (mkWorld h'
                       (console (mkWorld ∅ [] ["rice"; " YES "; "chicken"; "n"] 0)
                        ++ cycleOutput codeUnitCompare sampleRequest "rice" ++ [separatorLine])
                       ["chicken"; "n"]
                       (S (readers (mkWorld ∅ [] ["rice"; " YES "; "chicken"; "n"] 0)))) with
            | (Return _, w2) => (Return tt, set_readers (pred (readers w2)) w2)
            | other => other
            end.
Proof.
  split; [reflexivity|]. split; [reflexivity|]. split; [reflexivity|].
  apply (main_again_session codeUnitCompare sampleRequest 1
           (mkWorld ∅ [] ["rice"; " YES "; "chicken"; "n"] 0) "rice" " YES " ["chicken"; "n"]);
    reflexivity.
Defined.

(** X21.  When the input ends at a question, [main] is left waiting with
    the question on the terminal: nothing is reported, nothing is thrown
    and the reader stays open.  This holds at the prompt for ingredients
    and, after a cycle without failure, at the question whether to go
    on. *)
Theorem main_waits_for_input
    (localeCompare : string -> string -> Z) (request : string -> response)
    (fuel : nat) (w : world) :
  (stdin w = [] ->
   main localeCompare request (S fuel) w
   = (Pending, mkWorld (heap w) (console w ++ banner) [] (S (readers w))))
  /\ (forall raw,
        stdin w = [raw] ->
        cycleFailure request raw = None ->
        exists h',
          frames (heap w) h'
          /\ main localeCompare request (S fuel) w
             = (Pending,
                mkWorld h' (console w ++ cycleOutput localeCompare request raw) []
                  (S (readers w)))).
Proof.
  split; [apply main_waits_first | intros raw; apply main_waits_second].
Qed.

(** X22.  Whatever the input and the answers of the database, and however
    [main] ends, the terminal keeps what it showed and only gains lines,
    the input is read from the front and the rest is left in place, and
    every array that was in the store is unchanged. *)
Theorem main_continues_world
    (localeCompare : string -> string -> Z) (request : string -> response)
    (fuel : nat) (w : world) :
  continues w (snd (main localeCompare request fuel w)).
Proof.
  destruct (main localeCompare request fuel w) as [o w'] eqn:Hrun.
  now destruct (main_invariants localeCompare request fuel w o w' Hrun).
Qed.

(** X23.  A call of [main] that returns has closed every reader that was
    opened during the call, those of the calls it made included; a call
    that is left waiting has readers open, and no input left. *)
Theorem main_closes_readers
    (localeCompare : string -> string -> Z) (request : string -> response)
    (fuel : nat) (w : world) :
  (fst (main localeCompare request fuel w) = Return tt ->
   readers (snd (main localeCompare request fuel w)) = readers w)
  /\ (fst (main localeCompare request fuel w) = Pending ->
      readers w < readers (snd (main localeCompare request fuel w))
      /\ stdin (snd (main localeCompare request fuel w)) = []).
Proof.
  destruct (main localeCompare request fuel w) as [o w'] eqn:Hrun.
  destruct (main_invariants localeCompare request fuel w o w' Hrun) as [_ [H1 [H2 _]]].
  split; assumption.
Qed.

(** X24.  Allowed one level of calls more than there are lines of input,
    [main] either returns or is left waiting for input: it does not throw,
    it uses no reference without an array, and neither its own calls nor
    those of the intersection run out of depth. *)
Theorem main_returns_or_waits
    (localeCompare : string -> string -> Z) (request : string -> response)
    (fuel : nat) (w : world) :
  length (stdin w) < fuel ->
  fst (main localeCompare request fuel w) = Return tt
  \/ fst (main localeCompare request fuel w) = Pending.
Proof.
  intros Hlen.
  destruct (main localeCompare request fuel w) as [o w'] eqn:Hrun.
  destruct (main_invariants localeCompare request fuel w o w' Hrun) as [_ [_ [_ H]]].
  now apply H.
Qed.

Lemma main_returns_or_waits_witness :
  length (stdin (mkWorld ∅ [] ["rice"; "y"; "saffron"] 0)) < 4
  /\ (fst (main codeUnitCompare sampleRequest 4 (mkWorld ∅ [] ["rice"; "y"; "saffron"] 0))
      = Return tt
      \/ fst (main codeUnitCompare sampleRequest 4 (mkWorld ∅ [] ["rice"; "y"; "saffron"] 0))
         = Pending).
Proof.
  split; [simpl; lia|].
  apply (main_returns_or_waits codeUnitCompare sampleRequest 4
           (mkWorld ∅ [] ["rice"; "y"; "saffron"] 0)).
  simpl. lia.
Defined.

(** X25.  The deduplicated list has as many records as the list had
    different identifiers; this is the number the summary reports as the
    recipes found. *)
Theorem dedupe_counts_identifiers (meals : list Meal) :
  length (dedupe meals) = size (idset meals).
Proof.
  rewrite <- (dedupe_idset meals). unfold idset.
  rewrite size_list_to_set.
  - unfold ids. now rewrite length_map.
  - apply NoDup_ListNoDup. rewrite dedupe_ids. apply firstSeen_NoDup.
Qed.

(** ** Parsing any string *)

Lemma isWhiteSpace_whiteUnit (u : N) : Utf16.isWhiteSpace u = true <-> whiteUnit u.
Proof.
  unfold Utf16.isWhiteSpace, whiteUnit, whiteSpaceUnits. cbn [In].
  rewrite !orb_true_iff, !andb_true_iff, !N.leb_le, !N.eqb_eq. lia.
Qed.

Section Utf16Parsing.

Implicit Types (s piece core : Utf16.ustring) (u : N).

Lemma isWhiteSpace_not_whiteUnit u : Utf16.isWhiteSpace u = false <-> ~ whiteUnit u.
Proof.
  rewrite <- isWhiteSpace_whiteUnit. destruct (Utf16.isWhiteSpace u); split; congruence.
Qed.

Lemma trimStart_decompose_units s :
  exists before,
    s = before ++ Utf16.trimStart s
    /\ blank before
    /\ (forall u rest, Utf16.trimStart s = u :: rest -> ~ whiteUnit u).
Proof.
  induction s as [|v s IH].
  - exists []. split; [reflexivity|]. split; [constructor | discriminate].
  - cbn [Utf16.trimStart]. destruct (Utf16.isWhiteSpace v) eqn:Hv.
    + destruct IH as [before [Hs [Hb Hh]]]. exists (v :: before).
      split; [cbn; now rewrite <- Hs|].
      split; [|exact Hh]. constructor; [now apply isWhiteSpace_whiteUnit | exact Hb].
    + exists []. split; [reflexivity|]. split; [constructor|].
      intros u rest [= <- _]. now apply isWhiteSpace_not_whiteUnit.
Qed.

Lemma trimEnd_cons_units u s :
  Utf16.trimEnd (u :: s)
  = match Utf16.trimEnd s with
    | [] => if Utf16.isWhiteSpace u then [] else [u]
    | kept => u :: kept
    end.
Proof. reflexivity. Qed.

Lemma last_unit_cons (v : N) (kept init : list N) (u : N) :
  kept <> [] -> v :: kept = init ++ [u] -> exists init', kept = init' ++ [u].
Proof.
  intros Hne E. destruct init as [|w init].
  - cbn in E. injection E as _ E. congruence.
  - cbn in E. injection E as _ E. now exists init.
Qed.

Lemma trimEnd_decompose_units s :
  exists after,
    s = Utf16.trimEnd s ++ after
    /\ blank after
    /\ (forall init u, Utf16.trimEnd s = init ++ [u] -> ~ whiteUnit u)
    /\ (forall u rest, Utf16.trimEnd s = u :: rest -> exists rest', s = u :: rest').
Proof.
  induction s as [|v s IH].
  - exists []. split; [reflexivity|]. split; [constructor|].
    split; [intros [|? ?] ? ?; discriminate | discriminate].
  - destruct IH as [after [Hs [Hb [Hl _]]]]. rewrite trimEnd_cons_units.
    destruct (Utf16.trimEnd s) as [|k kept] eqn:Hk.
    + cbn [app] in Hs. subst after.
      destruct (Utf16.isWhiteSpace v) eqn:Hv.
      * exists (v :: s). split; [reflexivity|].
        split; [constructor; [now apply isWhiteSpace_whiteUnit | exact Hb]|].
        split; [intros [|? ?] ? ?; discriminate | discriminate].
      * exists s. split; [reflexivity|]. split; [exact Hb|].
        split.
        -- intros init u E. destruct init as [|w init].
           ++ cbn in E. injection E as <-. now apply isWhiteSpace_not_whiteUnit.
           ++ cbn in E. injection E as _ E. now destruct init.
        -- intros u rest [= <- _]. now exists s.
    + exists after. split; [cbn; now rewrite Hs at 1|]. split; [exact Hb|].
      split.
      * intros init u E.
        destruct (last_unit_cons v (k :: kept) init u ltac:(discriminate) E) as [init' E'].
        now apply (Hl init' u).
      * intros u rest [= <- _]. now exists s.
Qed.

Lemma trim_trimmedOf piece : trimmedOf piece (Utf16.trim piece).
Proof.
  unfold Utf16.trim.
  destruct (trimStart_decompose_units piece) as [before [Hp [Hb Hhead]]].
  destruct (trimEnd_decompose_units (Utf16.trimStart piece)) as [after [Hs [Ha [Hlast Hsame]]]].
  exists before, after.
  split; [now rewrite <- Hs|]. split; [exact Hb|]. split; [exact Ha|].
  split; [|exact Hlast].
  intros u rest E. destruct (Hsame u rest E) as [rest' E']. now apply (Hhead u rest').
Qed.

Lemma split_comma_not_nil_units s : Utf16.split_comma s <> [].
Proof.
  induction s as [|u s IH]; cbn; [discriminate|].
  destruct (u =? 44)%N; [discriminate|].
  destruct (Utf16.split_comma s); discriminate.
Qed.

Lemma joinUnits_cons2 (sep a b : Utf16.ustring) (l : list Utf16.ustring) :
  joinUnits sep (a :: b :: l) = a ++ sep ++ joinUnits sep (b :: l).
Proof. reflexivity. Qed.

Lemma join_split_comma_units s : s = joinUnits [44%N] (Utf16.split_comma s).
Proof.
  induction s as [|u s IH]; [reflexivity|].
  cbn [Utf16.split_comma].
  destruct (N.eqb_spec u 44) as [->|Hu].
  - destruct (Utf16.split_comma s) as [|p ps] eqn:Hs; [now apply split_comma_not_nil_units in Hs|].
    rewrite joinUnits_cons2, <- IH. reflexivity.
  - destruct (Utf16.split_comma s) as [|p ps] eqn:Hs; [now apply split_comma_not_nil_units in Hs|].
    rewrite IH at 1. destruct ps; reflexivity.
Qed.

Lemma split_comma_commaFree s : Forall commaFree (Utf16.split_comma s).
Proof.
  induction s as [|u s IH]; cbn [Utf16.split_comma].
  - constructor; [intros [] | constructor].
  - destruct (N.eqb_spec u 44) as [->|Hu].
    + constructor; [intros [] | exact IH].
    + destruct (Utf16.split_comma s) as [|p ps]; inversion IH; subst.
      * constructor; [|constructor]. intros [E|[]]. congruence.
      * constructor; [|assumption]. intros [E|Hin]; [congruence | contradiction].
Qed.

Lemma Forall2_trim (pieces : list Utf16.ustring) :
  Forall2 trimmedOf pieces (List.map Utf16.trim pieces).
Proof.
  induction pieces as [|p pieces IH]; cbn; constructor; [apply trim_trimmedOf | exact IH].
Qed.

Lemma trim_tight piece : tight (Utf16.trim piece).
Proof. destruct (trim_trimmedOf piece) as [? [? [_ [_ [_ H]]]]]. exact H. Qed.

Lemma filter_notEmpty (l : list Utf16.ustring) :
  List.filter (fun s => (0 <? length s)%nat) l = List.filter notEmpty l.
Proof. apply filter_ext. intros [|? ?]; reflexivity. Qed.

End Utf16Parsing.

(** C6.  For every raw input string, a sequence of UTF-16 code units of
    any kind: every token of [parseIngredients] is lower-case, it is a
    result of [toLowerCase] and [toLowerCase] leaves it as it is, has no
    white space at its start or at its end, and is not empty; and the
    tokens are, in the order of the input, the pieces between its commas,
    each without the white space around it and then lower-cased, the
    empty ones left out: nothing is moved and nothing is merged.  Of the
    host's [toLowerCase] it is assumed that applying it twice is applying
    it once and that it puts no white space at the ends of a string that
    has none there. *)
Theorem parseIngredients_every_input
    (toLowerCase : Utf16.ustring -> Utf16.ustring)
    (lower_idempotent : forall s, toLowerCase (toLowerCase s) = toLowerCase s)
    (lower_ends : forall s, tight s -> tight (toLowerCase s))
    (raw : Utf16.ustring) :
  Forall (fun t => t <> [] /\ toLowerCase t = t /\ tight t)
    (Utf16.parseIngredients toLowerCase raw)
  /\ exists pieces cores,
       raw = joinUnits [44%N] pieces
       /\ Forall commaFree pieces
       /\ Forall2 trimmedOf pieces cores
       /\ Utf16.parseIngredients toLowerCase raw
          = List.filter notEmpty (List.map toLowerCase cores).
Proof.
  split.
  - unfold Utf16.parseIngredients. apply List.Forall_forall. intros t Ht.
    apply filter_In in Ht. destruct Ht as [Hin Hlen].
    apply in_map_iff in Hin. destruct Hin as [piece [<- _]].
    split; [|split].
    + intros E. rewrite E in Hlen. discriminate.
    + apply lower_idempotent.
    + apply lower_ends, trim_tight.
  - exists (Utf16.split_comma raw), (List.map Utf16.trim (Utf16.split_comma raw)).
    split; [apply join_split_comma_units|].
    split; [apply split_comma_commaFree|].
    split; [apply Forall2_trim|].
    unfold Utf16.parseIngredients. now rewrite filter_notEmpty, map_map.
Qed.

(** ** The lower-casing of the code units below U+0100 *)

Section Latin1.

Local Ltac by_cases_on c :=
  destruct c as [[] [] [] [] [] [] [] []]; vm_compute; try reflexivity; try congruence.

Lemma lowerUnit_cases (u : N) :
  (((65 <= u <= 90) \/ (192 <= u <= 222 /\ u <> 215)) /\ Utf16.lowerUnit u = u + 32)%N
  \/ (~ ((65 <= u <= 90) \/ (192 <= u <= 222 /\ u <> 215)) /\ Utf16.lowerUnit u = u)%N.
Proof.
  unfold Utf16.lowerUnit.
  destruct ((65 <=? u) && (u <=? 90) || (192 <=? u) && (u <=? 222) && negb (u =? 215))%N
    eqn:E.
  - left. split; [|reflexivity].
    rewrite orb_true_iff, !andb_true_iff, negb_true_iff, !N.leb_le, N.eqb_neq in E. lia.
  - right. split; [|reflexivity].
    rewrite orb_false_iff, !andb_false_iff, negb_false_iff, !N.leb_gt, N.eqb_eq in E. lia.
Qed.

Lemma lowerUnit_idempotent (u : N) : Utf16.lowerUnit (Utf16.lowerUnit u) = Utf16.lowerUnit u.
Proof.
  destruct (lowerUnit_cases u) as [[Hu ->]|[Hu E]]; [|now rewrite !E].
  destruct (lowerUnit_cases (u + 32)) as [[Hv _]|[_ E]]; [lia | exact E].
Qed.

Lemma lowerUnit_white (u : N) : ~ whiteUnit u -> ~ whiteUnit (Utf16.lowerUnit u).
Proof.
  destruct (lowerUnit_cases u) as [[Hu ->]|[_ ->]]; [|trivial].
  intros _. unfold whiteUnit, whiteSpaceUnits. cbn [In]. lia.
Qed.

Lemma toLowerCaseLatin1_idempotent (s : Utf16.ustring) :
  Utf16.toLowerCaseLatin1 (Utf16.toLowerCaseLatin1 s) = Utf16.toLowerCaseLatin1 s.
Proof.
  unfold Utf16.toLowerCaseLatin1. rewrite map_map. apply map_ext.
  apply lowerUnit_idempotent.
Qed.

Lemma toLowerCaseLatin1_ends (s : Utf16.ustring) :
  tight s -> tight (Utf16.toLowerCaseLatin1 s).
Proof.
  unfold Utf16.toLowerCaseLatin1. intros [Hfirst Hlast]. split.
  - intros u rest E. destruct s as [|v s]; [discriminate|].
    cbn in E. injection E as <- _. now apply lowerUnit_white, (Hfirst v s).
  - intros init u E. apply map_eq_app in E.
    destruct E as [init0 [tail0 [-> [_ Htail]]]].
    destruct tail0 as [|v [|? ?]]; try discriminate.
    cbn in Htail. injection Htail as <-. now apply lowerUnit_white, (Hlast init0 v).
Qed.

(** The 8-bit embedding is this one on the strings of code units below
    U+0100. *)

Lemma units_cons (c : ascii) (s : string) :
  Utf16.units (String c s) = N_of_ascii c :: Utf16.units s.
Proof. reflexivity. Qed.

Lemma isWhiteSpace_units (c : ascii) :
  Utf16.isWhiteSpace (N_of_ascii c) = isWhiteSpace c.
Proof. by_cases_on c. Qed.

Lemma lowerUnit_units (c : ascii) : Utf16.lowerUnit (N_of_ascii c) = N_of_ascii (toLowerChar c).
Proof. by_cases_on c. Qed.

Lemma comma_units (c : ascii) : (N_of_ascii c =? 44)%N = Ascii.eqb c ","%char.
Proof. by_cases_on c. Qed.

Lemma toLowerCase_units (s : string) :
  Utf16.units (toLowerCase s) = Utf16.toLowerCaseLatin1 (Utf16.units s).
Proof.
  induction s as [|c s IH]; [reflexivity|].
  cbn [toLowerCase]. rewrite !units_cons. unfold Utf16.toLowerCaseLatin1 in *.
  cbn [List.map]. now rewrite lowerUnit_units, IH.
Qed.

Lemma trimStart_units (s : string) :
  Utf16.units (trimStart s) = Utf16.trimStart (Utf16.units s).
Proof.
  induction s as [|c s IH]; [reflexivity|].
  rewrite units_cons. cbn [trimStart Utf16.trimStart]. rewrite isWhiteSpace_units.
  destruct (isWhiteSpace c); [exact IH | apply units_cons].
Qed.

Lemma trimEnd_units (s : string) :
  Utf16.units (trimEnd s) = Utf16.trimEnd (Utf16.units s).
Proof.
  induction s as [|c s IH]; [reflexivity|].
  rewrite units_cons, trimEnd_cons, trimEnd_cons_units, <- IH, isWhiteSpace_units.
  destruct (trimEnd s) as [|d t]; cbn; [|reflexivity].
  destruct (isWhiteSpace c); reflexivity.
Qed.

Lemma trim_units (s : string) : Utf16.units (trim s) = Utf16.trim (Utf16.units s).
Proof. unfold trim, Utf16.trim. now rewrite trimEnd_units, trimStart_units. Qed.

Lemma split_comma_units (s : string) :
  List.map Utf16.units (split_comma s) = Utf16.split_comma (Utf16.units s).
Proof.
  induction s as [|c s IH]; [reflexivity|].
  rewrite units_cons. cbn [split_comma Utf16.split_comma]. rewrite comma_units, <- IH.
  destruct (Ascii.eqb c ","); [reflexivity|].
  destruct (split_comma s); reflexivity.
Qed.

Lemma length_units (s : string) : length (Utf16.units s) = String.length s.
Proof. induction s as [|c s IH]; [reflexivity|]. rewrite units_cons. cbn. now rewrite IH. Qed.

Lemma map_filter_commute {A B : Type} (f : A -> B) (p : A -> bool) (q : B -> bool)
    (l : list A) :
  (forall x, q (f x) = p x) ->
  List.map f (List.filter p l) = List.filter q (List.map f l).
Proof.
  intros H. induction l as [|x l IH]; [reflexivity|].
  cbn. rewrite H. destruct (p x); cbn; now rewrite IH.
Qed.

(** On a string of code units below U+0100 the two embeddings of
    [parseIngredients] give the same tokens. *)
Lemma parseIngredients_units (raw : string) :
  List.map Utf16.units (parseIngredients raw)
  = Utf16.parseIngredients Utf16.toLowerCaseLatin1 (Utf16.units raw).
Proof.
  unfold parseIngredients, Utf16.parseIngredients.
  rewrite (map_filter_commute Utf16.units _ (fun s => (0 <? length s)%nat))
    by (intros x; now rewrite length_units).
  rewrite <- split_comma_units, !map_map. f_equal.
  apply map_ext. intros piece. now rewrite toLowerCase_units, trim_units.
Qed.

End Latin1.

Lemma parseIngredients_every_input_witness :
  (forall s, Utf16.toLowerCaseLatin1 (Utf16.toLowerCaseLatin1 s) = Utf16.toLowerCaseLatin1 s)
  /\ (forall s, tight s -> tight (Utf16.toLowerCaseLatin1 s))
  /\ Forall (fun t => t <> [] /\ Utf16.toLowerCaseLatin1 t = t /\ tight t)
       (Utf16.parseIngredients Utf16.toLowerCaseLatin1
          [12288; 82; 73; 67; 69; 8195; 44; 44; 32; 66; 101; 101; 70]%N)
  /\ exists pieces cores,
       [12288; 82; 73; 67; 69; 8195; 44; 44; 32; 66; 101; 101; 70]%N
       = joinUnits [44%N] pieces
       /\ Forall commaFree pieces
       /\ Forall2 trimmedOf pieces cores
       /\ Utf16.parseIngredients Utf16.toLowerCaseLatin1
            [12288; 82; 73; 67; 69; 8195; 44; 44; 32; 66; 101; 101; 70]%N
          = List.filter notEmpty (List.map Utf16.toLowerCaseLatin1 cores).
Proof.
  split; [exact toLowerCaseLatin1_idempotent|].
  split; [exact toLowerCaseLatin1_ends|].
  apply (parseIngredients_every_input Utf16.toLowerCaseLatin1
           toLowerCaseLatin1_idempotent toLowerCaseLatin1_ends
           [12288; 82; 73; 67; 69; 8195; 44; 44; 32; 66; 101; 101; 70]%N).
Defined.

(** The input of the witness is RICE between an ideographic space and an
    em space, two commas, and BeeF after a space. *)
Example parseIngredients_beyond_latin1 :
  Utf16.parseIngredients Utf16.toLowerCaseLatin1
    [12288; 82; 73; 67; 69; 8195; 44; 44; 32; 66; 101; 101; 70]%N
  = [[114; 105; 99; 101]; [98; 101; 101; 102]]%N.
Proof. reflexivity. Qed.
